(** * A shallow embedding of the serde bridge of simdjson-rust

    Sources: [src/serde/de.rs] (deserialization adapter over a DOM element),
    [src/serde/ser.rs] (streaming serializer into a [StringBuilder]),
    [src/serde/value.rs] (DOM to [serde_json::Value] conversion) and
    [src/builder.rs] (the [StringBuilder] wrapper). *)

Set Warnings "-register-all".
From Stdlib Require Import ZArith List String Ascii Bool Lia.
From Stdlib Require Import Floats.SpecFloat.
From Stdlib Require Import Sorting.Sorted.
From ExtLib Require Import Structures.Monad.
Import ListNotations.
Import MonadNotation.
Local Open Scope monad_scope.
Local Open Scope Z_scope.

(* ================================================================= *)
(** ** Errors and results *)

(** [crate::error::SimdJsonError]: the serde adapters only build the
    [Serde] variant; the DOM accessors report simdjson error codes. *)
Inductive SimdJsonError :=
| Serde (msg : string)
| IncorrectType
| NumberOutOfRange.

(** [Result<T, SimdJsonError>]. *)
Inductive result (A : Type) :=
| Ok (a : A)
| Err (e : SimdJsonError).
Arguments Ok {A} a.
Arguments Err {A} e.

#[global] Instance Monad_result : Monad result :=
  { ret := fun _ a => Ok a;
    bind := fun _ _ c k => match c with Ok a => k a | Err e => Err e end }.

Definition map_result {A B} (f : A -> B) (r : result A) : result B :=
  match r with Ok a => Ok (f a) | Err e => Err e end.

(** [fn de_error(msg: &str) -> SimdJsonError]. *)
Definition de_error (msg : string) : SimdJsonError := Serde msg.

(** Decimal rendering of integers, as [format!("{v}")] prints an
    [i64] or [u64]. *)
Fixpoint string_of_N_aux (fuel : nat) (n : N) (acc : string) : string :=
  match fuel with
  | O => acc
  | S f =>
      let acc' := String (ascii_of_N (48 + N.modulo n 10)) acc in
      let q := N.div n 10 in
      if N.eqb q 0 then acc' else string_of_N_aux f q acc'
  end.

Definition string_of_N (n : N) : string := string_of_N_aux (N.size_nat n) n EmptyString.

Definition string_of_Z (z : Z) : string :=
  if z <? 0 then String "-" (string_of_N (Z.to_N (- z))) else string_of_N (Z.to_N z).

(* ================================================================= *)
(** ** IEEE-754 floats

    [f64] is binary64 and [f32] is binary32, both as [spec_float] values
    of the Standard Library (the bit-level IEEE-754 specification).  Rust's
    [as] casts between them round to nearest, ties to even, and overflow
    to infinity: this is [binary_normalize] at the target format. *)

Definition f64 := spec_float.
Definition f32 := spec_float.

Definition f64_prec := 53.
Definition f64_emax := 1024.
Definition f32_prec := 24.
Definition f32_emax := 128.

(** [f64::is_finite] / [f32::is_finite]. *)
Definition is_finite (x : spec_float) : bool :=
  match x with
  | S754_zero _ | S754_finite _ _ _ => true
  | S754_infinity _ | S754_nan => false
  end.

Definition is_nan (x : spec_float) : bool :=
  match x with S754_nan => true | _ => false end.

(** Rounding a float into a target format given by [prec] and [emax]. *)
Definition float_cast (prec emax : Z) (x : spec_float) : spec_float :=
  match x with
  | S754_zero s => S754_zero s
  | S754_infinity s => S754_infinity s
  | S754_nan => S754_nan
  | S754_finite s m e => binary_normalize prec emax (cond_Zopp s (Zpos m)) e s
  end.

(** [v as f64] for [v : f32] (exact) and [v as f32] for [v : f64]. *)
Definition f32_as_f64 (x : f32) : f64 := float_cast f64_prec f64_emax x.
Definition f64_as_f32 (x : f64) : f32 := float_cast f32_prec f32_emax x.

(* ================================================================= *)
(** ** The DOM element view ([crate::dom], not part of the sources) *)

(** [dom::ElementType]. *)
Inductive ElementType :=
| NullValue | Bool | Int64 | UInt64 | Double | String_ | Array | Object.

(** A parsed DOM tree: every node carries its type tag and payload;
    objects keep their key/value pairs in document order. *)
Inductive Element :=
| ENull
| EBool (b : bool)
| EInt64 (v : Z)
| EUInt64 (v : Z)
| EDouble (d : f64)
| EString (s : string)
| EArray (xs : list Element)
| EObject (kvs : list (string * Element)).

Definition get_type (el : Element) : ElementType :=
  match el with
  | ENull => NullValue
  | EBool _ => Bool
  | EInt64 _ => Int64
  | EUInt64 _ => UInt64
  | EDouble _ => Double
  | EString _ => String_
  | EArray _ => Array
  | EObject _ => Object
  end.

(** Modelled from the spec: the DOM accessors of [crate::dom::Element]
    (§3, §6): a scalar accessor returns the node's payload when the type
    tag matches the request and fails with a type-mismatch error
    otherwise. *)
Definition get_bool (el : Element) : result bool :=
  match el with EBool b => Ok b | _ => Err IncorrectType end.

(** Modelled from the spec: [Element::get_int64]. *)
Definition get_int64 (el : Element) : result Z :=
  match el with EInt64 v => Ok v | _ => Err IncorrectType end.

(** Modelled from the spec: [Element::get_uint64]. *)
Definition get_uint64 (el : Element) : result Z :=
  match el with EUInt64 v => Ok v | _ => Err IncorrectType end.

(** Modelled from the spec: [Element::get_double]. *)
Definition get_double (el : Element) : result f64 :=
  match el with EDouble d => Ok d | _ => Err IncorrectType end.

(** Modelled from the spec: [Element::get_string]. *)
Definition get_string (el : Element) : result string :=
  match el with EString s => Ok s | _ => Err IncorrectType end.

(** Modelled from the spec: [Element::get_array] (its iterator yields the
    elements in order). *)
Definition get_array (el : Element) : result (list Element) :=
  match el with EArray xs => Ok xs | _ => Err IncorrectType end.

(** Modelled from the spec: [Element::get_object] (its iterator yields the
    key/value pairs in order). *)
Definition get_object (el : Element) : result (list (string * Element)) :=
  match el with EObject kvs => Ok kvs | _ => Err IncorrectType end.

(** Modelled from the spec: [Element::is_null]. *)
Definition is_null (el : Element) : bool :=
  match el with ENull => true | _ => false end.

(* ================================================================= *)
(** ** Deserialization of primitives ([impl Deserializer for &Element])

    For a primitive request the visitor is the target type's own
    primitive visitor, which returns the visited value unchanged; the
    functions below return that value. *)

(** [i8::try_from(v)] and its siblings for an [i64] or [u64] source. *)
Definition int_try_from (lo hi v : Z) : option Z :=
  if (lo <=? v) && (v <=? hi) then Some v else None.

Definition i8_try_from := int_try_from (-128) 127.
Definition i16_try_from := int_try_from (-32768) 32767.
Definition i32_try_from := int_try_from (-2147483648) 2147483647.
Definition u8_try_from := int_try_from 0 255.
Definition u16_try_from := int_try_from 0 65535.
Definition u32_try_from := int_try_from 0 4294967295.

(** [map_err(|_| de_error(&format!("{src} value {v} out of range for {dst}")))]. *)
Definition narrow (try_from : Z -> option Z) (src dst : string) (v : Z) : result Z :=
  match try_from v with
  | Some n => Ok n
  | None => Err (de_error (src ++ " value " ++ string_of_Z v ++ " out of range for " ++ dst))
  end.

Definition deserialize_i8 (el : Element) : result Z :=
  v <- get_int64 el ;; narrow i8_try_from "i64" "i8" v.
Definition deserialize_i16 (el : Element) : result Z :=
  v <- get_int64 el ;; narrow i16_try_from "i64" "i16" v.
Definition deserialize_i32 (el : Element) : result Z :=
  v <- get_int64 el ;; narrow i32_try_from "i64" "i32" v.
Definition deserialize_i64 (el : Element) : result Z := get_int64 el.
Definition deserialize_u8 (el : Element) : result Z :=
  v <- get_uint64 el ;; narrow u8_try_from "u64" "u8" v.
Definition deserialize_u16 (el : Element) : result Z :=
  v <- get_uint64 el ;; narrow u16_try_from "u64" "u16" v.
Definition deserialize_u32 (el : Element) : result Z :=
  v <- get_uint64 el ;; narrow u32_try_from "u64" "u32" v.
Definition deserialize_u64 (el : Element) : result Z := get_uint64 el.

(** [visitor.visit_f32(self.get_double()? as f32)]. *)
Definition deserialize_f32 (el : Element) : result f32 :=
  d <- get_double el ;; ret (f64_as_f32 d).
Definition deserialize_f64 (el : Element) : result f64 := get_double el.
Definition deserialize_bool (el : Element) : result bool := get_bool el.
Definition deserialize_string (el : Element) : result string := get_string el.
Definition deserialize_unit (el : Element) : result unit := ret tt.

(* ================================================================= *)
(** ** Enum requests ([deserialize_enum]) *)

(** [EnumDeserializer { variant, value }]. *)
Record EnumDeserializer := { ed_variant : string; ed_value : Element }.

(** The two [EnumAccess] values handed to [visitor.visit_enum]: serde's
    [StrDeserializer] for a string node, the crate's [EnumDeserializer]
    for an object node. *)
Inductive EnumAccess :=
| EnumStr (s : string)
| EnumObj (ed : EnumDeserializer).

(** [fn deserialize_enum]: [iter.next()] on the object iterator is the
    head of its key/value list; the iterator is then dropped. *)
Definition deserialize_enum {A} (visit_enum : EnumAccess -> result A) (el : Element)
  : result A :=
  match get_type el with
  | String_ =>
      s <- get_string el ;;
      visit_enum (EnumStr s)
  | Object =>
      object <- get_object el ;;
      let pair := hd_error object in
      match pair with
      | Some (variant, value) =>
          visit_enum (EnumObj {| ed_variant := variant; ed_value := value |})
      | None => Err (de_error "expected an object with a single key for enum")
      end
  | _ => Err (de_error "expected a string or object for enum")
  end.

(* ================================================================= *)
(** ** Map and struct requests ([MapAccessor]) *)

(** [struct MapAccessor { iter, pending_value }]: the object iterator is
    the list of the pairs not yet visited. *)
Record MapAccessor := { iter : list (string * Element); pending_value : option Element }.

Definition MapAccessor_new (it : list (string * Element)) : MapAccessor :=
  {| iter := it; pending_value := None |}.

(** A [DeserializeSeed] for a key reads the key through serde's
    [StringDeserializer]; one for a value reads a DOM element.  Both
    methods take [&mut self]: they return the new accessor state. *)
Definition next_key_seed {K} (seed : string -> result K) (m : MapAccessor)
  : result (option K) * MapAccessor :=
  match iter m with
  | (key, value) :: rest =>
      let m' := {| iter := rest; pending_value := Some value |} in
      (map_result Some (seed key), m')
  | [] => (Ok None, m)
  end.

Definition next_value_seed {V} (seed : Element -> result V) (m : MapAccessor)
  : result V * MapAccessor :=
  let m' := {| iter := iter m; pending_value := None |} in
  match pending_value m with
  | Some value => (seed value, m')
  | None => (Err (de_error "next_value_seed called before next_key_seed"), m')
  end.

Example narrow_msg_ex :
  deserialize_u8 (EUInt64 256) = Err (Serde "u64 value 256 out of range for u8").
Proof. reflexivity. Qed.

Example narrow_msg_neg_ex :
  deserialize_i8 (EInt64 (-129)) = Err (Serde "i64 value -129 out of range for i8").
Proof. reflexivity. Qed.

Example f32_overflow_ex :
  deserialize_f32 (EDouble (S754_finite false 1 200)) = Ok (S754_infinity false).
Proof. vm_compute. reflexivity. Qed.

Example f32_exact_ex :
  deserialize_f32 (EDouble (S754_finite false 3 (-1))) = Ok (S754_finite false 12582912 (-23)).
Proof. vm_compute. reflexivity. Qed.

(* ================================================================= *)
(** ** [serde_json::Value] and [element_to_value] ([src/serde/value.rs]) *)

Module Json.

(** [serde_json::Number]: [From<i64>] stores a non-negative value as
    [PosInt]; [from_f64] accepts finite floats only. *)
Inductive Number :=
| PosInt (u : Z)
| NegInt (i : Z)
| Float (f : f64).

Definition Number_from_i64 (v : Z) : Number := if v <? 0 then NegInt v else PosInt v.
Definition Number_from_u64 (v : Z) : Number := PosInt v.
Definition Number_from_f64 (v : f64) : option Number :=
  if is_finite v then Some (Float v) else None.

(** [serde_json::Value]; its [Map<String, Value>] is serde_json's
    default map, a [BTreeMap]: the association list is kept sorted by
    key, each key once. *)
Inductive Value :=
| VNull
| VBool (b : bool)
| VNumber (n : Number)
| VString (s : string)
| VArray (xs : list Value)
| VObject (m : list (string * Value)).

Definition Map := list (string * Value).

(** [BTreeMap::insert]: a present key has its value replaced, a new key
    goes to its place in the key order ([Ord for String] compares the
    bytes). *)
Fixpoint map_insert (k : string) (v : Value) (m : Map) : Map :=
  match m with
  | [] => [(k, v)]
  | (k', v') :: rest =>
      match String.compare k k' with
      | Lt => (k, v) :: m
      | Eq => (k, v) :: rest
      | Gt => (k', v') :: map_insert k v rest
      end
  end.

Definition MAX_NESTING_DEPTH : nat := 128.

(** How Rust's [Display] prints a non-finite [f64]; the two error
    messages below only ever format non-finite values. *)
Definition display_non_finite (v : f64) : string :=
  match v with
  | S754_infinity false => "inf"
  | S754_infinity true => "-inf"
  | _ => "NaN"
  end.

Definition depth_error : SimdJsonError :=
  Serde "nesting depth exceeds maximum of 128".

(** [fn element_to_value_inner].  The [match element.get_type()] with the
    accessor of the matching tag is written as a match on the node (the
    accessor of a node's own tag returns its payload); arrays and objects
    are walked in iterator order, stopping at the first error. *)
Fixpoint element_to_value_inner (el : Element) (depth : nat) {struct el} : result Value :=
  if Nat.ltb MAX_NESTING_DEPTH depth then Err depth_error
  else
    match el with
    | ENull => Ok VNull
    | EBool b => Ok (VBool b)
    | EString s => Ok (VString s)
    | EInt64 v => Ok (VNumber (Number_from_i64 v))
    | EUInt64 v => Ok (VNumber (Number_from_u64 v))
    | EDouble v =>
        match Number_from_f64 v with
        | Some n => Ok (VNumber n)
        | None =>
            Err (Serde ("cannot represent " ++ display_non_finite v
                        ++ " as a JSON number (NaN or Infinity)"))
        end
    | EArray array =>
        vec <- (fix go (xs : list Element) : result (list Value) :=
                  match xs with
                  | [] => Ok []
                  | child :: rest =>
                      v <- element_to_value_inner child (S depth) ;;
                      vs <- go rest ;;
                      ret (v :: vs)
                  end) array ;;
        ret (VArray vec)
    | EObject object =>
        map <- (fix go (kvs : list (string * Element)) (map : Map) : result Map :=
                  match kvs with
                  | [] => Ok map
                  | (key, child) :: rest =>
                      v <- element_to_value_inner child (S depth) ;;
                      go rest (map_insert key v map)
                  end) object [] ;;
        ret (VObject map)
    end.

Definition element_to_value (el : Element) : result Value := element_to_value_inner el 0.

(** Strictly increasing keys, the order of [map_insert]. *)
Definition key_lt (a b : string * Value) : Prop := String.compare (fst a) (fst b) = Lt.

(** The member loop of [element_to_value_inner] on an object. *)
Fixpoint obj_loop (d : nat) (kvs : list (string * Element)) (map : Map) : result Map :=
  match kvs with
  | [] => Ok map
  | (key, child) :: rest =>
      v <- element_to_value_inner child d ;; obj_loop d rest (map_insert key v map)
  end.

(** The element loop of [element_to_value_inner] on an array. *)
Fixpoint arr_loop (d : nat) (xs : list Element) : result (list Value) :=
  match xs with
  | [] => Ok []
  | child :: rest => v <- element_to_value_inner child d ;; vs <- arr_loop d rest ;; ret (v :: vs)
  end.

(** The depth of the deepest node below [el], [el] itself at depth 0. *)
Fixpoint max_depth (el : Element) : nat :=
  match el with
  | EArray xs => list_max (List.map (fun x => S (max_depth x)) xs)
  | EObject kvs => list_max (List.map (fun '(_, x) => S (max_depth x)) kvs)
  | _ => 0%nat
  end.

(** Every double in the tree is finite. *)
Fixpoint all_finite (el : Element) : bool :=
  match el with
  | EDouble d => is_finite d
  | EArray xs => forallb all_finite xs
  | EObject kvs => forallb (fun '(_, x) => all_finite x) kvs
  | _ => true
  end.

(** Induction over [Element] through its nested lists. *)
Section elem_ind_nested.
Variable P : Element -> Prop.
Hypothesis HNull : P ENull.
Hypothesis HBool : forall b, P (EBool b).
Hypothesis HInt64 : forall v, P (EInt64 v).
Hypothesis HUInt64 : forall v, P (EUInt64 v).
Hypothesis HDouble : forall d, P (EDouble d).
Hypothesis HString : forall s, P (EString s).
Hypothesis HArray : forall xs, Forall P xs -> P (EArray xs).
Hypothesis HObject : forall kvs, Forall (fun kx => P (snd kx)) kvs -> P (EObject kvs).

Fixpoint elem_ind_nested (el : Element) : P el :=
  match el with
  | ENull => HNull
  | EBool b => HBool b
  | EInt64 v => HInt64 v
  | EUInt64 v => HUInt64 v
  | EDouble d => HDouble d
  | EString s => HString s
  | EArray xs =>
      HArray xs ((fix go (xs : list Element) : Forall P xs :=
                    match xs with
                    | [] => Forall_nil _
                    | x :: r => Forall_cons _ (elem_ind_nested x) (go r)
                    end) xs)
  | EObject kvs =>
      HObject kvs ((fix go (kvs : list (string * Element)) : Forall (fun kx => P (snd kx)) kvs :=
                      match kvs with
                      | [] => Forall_nil _
                      | (k, x) :: r =>
                          Forall_cons (P := fun kx => P (snd kx)) (k, x) (elem_ind_nested x) (go r)
                      end) kvs)
  end.
End elem_ind_nested.

(** The conversion fails with [depth_error] exactly when the deepest node
    lies below depth 128, and succeeds otherwise. *)
Definition depth_outcome (r : result Value) (n : nat) : Prop :=
  (r = Err depth_error /\ (128 < n)%nat) \/ (exists v, r = Ok v /\ (n <= 128)%nat).

(** [x] converts according to [depth_outcome] at any starting depth. *)
Definition converts (x : Element) : Prop :=
  forall d', all_finite x = true -> depth_outcome (element_to_value_inner x d') (d' + max_depth x).

(** [n] arrays nested around a [null]: [[[...[null]...]]]. *)
Fixpoint nested_arrays (n : nat) : Element :=
  match n with
  | O => ENull
  | S k => EArray [nested_arrays k]
  end.

End Json.

(* ================================================================= *)
(** ** The output buffer ([src/builder.rs] over simdjson's string_builder) *)

(** The lexical tokens the builder appends: every append method of
    [StringBuilder] writes the JSON text of one token. *)
Inductive tok :=
| TBool (b : bool)
| TI64 (v : Z)
| TU64 (v : Z)
| TF64 (v : f64)
| TNull
| TString (s : string)
| TStartObject
| TEndObject
| TStartArray
| TEndArray
| TComma
| TColon.

(** Modelled from the spec: simdjson's [string_builder] behind the FFI
    calls of [StringBuilder] (§6 Output Buffer): an append-only buffer;
    the capacity given at creation is a pre-allocation size only. *)
Record StringBuilder := { sb_capacity : Z; sb_buf : list tok }.

Definition DEFAULT_INITIAL_CAPACITY : Z := 1024.

Definition StringBuilder_with_capacity (capacity : Z) : StringBuilder :=
  {| sb_capacity := capacity; sb_buf := [] |}.

Definition StringBuilder_new : StringBuilder :=
  StringBuilder_with_capacity DEFAULT_INITIAL_CAPACITY.

Definition append_toks (sb : StringBuilder) (ts : list tok) : StringBuilder :=
  {| sb_capacity := sb_capacity sb; sb_buf := sb_buf sb ++ ts |}.

(** Modelled from the spec: [StringBuilder::view] returns the contents;
    [into_string] copies them out. *)
Definition into_string (sb : StringBuilder) : result (list tok) := Ok (sb_buf sb).

(* ================================================================= *)
(** ** The serializer ([src/serde/ser.rs])

    [BuilderSerializer] holds [&mut StringBuilder]: its methods run in a
    state monad over the builder.  An error keeps the bytes already
    written (nothing is rolled back). *)

Definition M (A : Type) := StringBuilder -> (result A * StringBuilder)%type.

#[global] Instance Monad_M : Monad M :=
  { ret := fun _ a sb => (Ok a, sb);
    bind := fun _ _ c k sb =>
      match c sb with
      | (Ok a, sb') => k a sb'
      | (Err e, sb') => (Err e, sb')
      end }.

Definition raise {A} (e : SimdJsonError) : M A := fun sb => (Err e, sb).

Definition emit (t : tok) : M unit := fun sb => (Ok tt, append_toks sb [t]).

Definition append_bool (v : bool) : M unit := emit (TBool v).
Definition append_i64 (v : Z) : M unit := emit (TI64 v).
Definition append_u64 (v : Z) : M unit := emit (TU64 v).
Definition append_f64 (v : f64) : M unit := emit (TF64 v).
Definition append_null : M unit := emit TNull.
Definition append_string (s : string) : M unit := emit (TString s).
Definition start_object : M unit := emit TStartObject.
Definition end_object : M unit := emit TEndObject.
Definition start_array : M unit := emit TStartArray.
Definition end_array : M unit := emit TEndArray.
Definition append_comma : M unit := emit TComma.
Definition append_colon : M unit := emit TColon.

Definition serialize_bool (v : bool) : M unit := append_bool v.
(** [serialize_i8] .. [serialize_i64] widen to [i64]; [serialize_u8] ..
    [serialize_u64] widen to [u64]. *)
Definition serialize_i64 (v : Z) : M unit := append_i64 v.
Definition serialize_u64 (v : Z) : M unit := append_u64 v.

(** [fn serialize_f32]: [self.builder.append_f64(v as f64)]. *)
Definition serialize_f32 (v : f32) : M unit := append_f64 (f32_as_f64 v).

(** [fn serialize_f64]. *)
Definition serialize_f64 (v : f64) : M unit :=
  if negb (is_finite v) then
    raise (Serde ("cannot serialize non-finite float: " ++ Json.display_non_finite v))
  else append_f64 v.

Definition serialize_str (v : string) : M unit := append_string v.
Definition serialize_unit : M unit := append_null.
Definition serialize_none : M unit := serialize_unit.
Definition serialize_some (value : M unit) : M unit := value.
Definition serialize_unit_variant (variant : string) : M unit := serialize_str variant.

Definition serialize_newtype_variant (variant : string) (value : M unit) : M unit :=
  start_object ;; append_string variant ;; append_colon ;; value ;; end_object.

(** [SeqSerializer] and [MapSerializer] keep, besides the builder, their
    own [first] flag. *)
Record SeqSerializer := { seq_first : bool }.
Record MapSerializer := { map_first : bool }.

Definition serialize_seq : M SeqSerializer :=
  start_array ;; ret {| seq_first := true |}.
Definition serialize_tuple : M SeqSerializer := serialize_seq.

Definition serialize_tuple_variant (variant : string) : M SeqSerializer :=
  start_object ;; append_string variant ;; append_colon ;; start_array ;;
  ret {| seq_first := true |}.

Definition serialize_map : M MapSerializer :=
  start_object ;; ret {| map_first := true |}.
Definition serialize_struct : M MapSerializer := serialize_map.

Definition serialize_struct_variant (variant : string) : M MapSerializer :=
  start_object ;; append_string variant ;; append_colon ;; start_object ;;
  ret {| map_first := true |}.

(** [SerializeSeq::serialize_element]: [&mut self] is returned updated. *)
Definition SerializeSeq_serialize_element (self : SeqSerializer) (value : M unit)
  : M SeqSerializer :=
  (if negb (seq_first self) then append_comma else ret tt) ;;
  let self := {| seq_first := false |} in
  value ;;
  ret self.

Definition SerializeSeq_end (self : SeqSerializer) : M unit := end_array.

Definition SerializeTupleVariant_end (self : SeqSerializer) : M unit :=
  end_array ;; end_object.

(** [SerializeStruct::serialize_field]. *)
Definition SerializeStruct_serialize_field (self : MapSerializer) (key : string) (value : M unit)
  : M MapSerializer :=
  (if negb (map_first self) then append_comma else ret tt) ;;
  let self := {| map_first := false |} in
  append_string key ;;
  append_colon ;;
  value ;;
  ret self.

Definition SerializeStruct_end (self : MapSerializer) : M unit := end_object.

Definition SerializeStructVariant_end (self : MapSerializer) : M unit :=
  end_object ;; end_object.

(* ================================================================= *)
(** ** Typed values and their derived [Serialize] impls

    A value of a Rust type built from [bool], [i64], [u64], [f64],
    [String], [()], [Vec<T>], tuples, [Option<T>], structs with named
    fields and enums of the four variant shapes.  The derived impls carry
    the static field and variant names, so values carry them too. *)

Inductive val :=
| VBool (b : bool)
| VI64 (v : Z)
| VU64 (v : Z)
| VF64 (v : f64)
| VStr (s : string)
| VUnit
| VSeq (xs : list val)
| VTuple (xs : list val)
| VNone
| VSome (v : val)
| VStruct (fields : list (string * val))
| VUnitVariant (variant : string)
| VNewtypeVariant (variant : string) (v : val)
| VTupleVariant (variant : string) (xs : list val)
| VStructVariant (variant : string) (fields : list (string * val)).

(** The element loop of a sequence, and the field loop of a struct, as
    the derived impls (and serde's [collect_seq]) run them. *)
Fixpoint serialize_elements (elems : list (M unit)) (s : SeqSerializer) : M SeqSerializer :=
  match elems with
  | [] => ret s
  | e :: rest => s <- SerializeSeq_serialize_element s e ;; serialize_elements rest s
  end.

Fixpoint serialize_fields (fields : list (string * M unit)) (m : MapSerializer)
  : M MapSerializer :=
  match fields with
  | [] => ret m
  | (k, f) :: rest => m <- SerializeStruct_serialize_field m k f ;; serialize_fields rest m
  end.

Fixpoint serialize (v : val) : M unit :=
  let elems := fix go (xs : list val) : list (M unit) :=
      match xs with [] => [] | x :: r => serialize x :: go r end in
  let fields := fix go (fs : list (string * val)) : list (string * M unit) :=
      match fs with [] => [] | (k, x) :: r => (k, serialize x) :: go r end in
  match v with
  | VBool b => serialize_bool b
  | VI64 z => serialize_i64 z
  | VU64 z => serialize_u64 z
  | VF64 f => serialize_f64 f
  | VStr s => serialize_str s
  | VUnit => serialize_unit
  | VSeq xs => s <- serialize_seq ;; s <- serialize_elements (elems xs) s ;; SerializeSeq_end s
  | VTuple xs => s <- serialize_tuple ;; s <- serialize_elements (elems xs) s ;; SerializeSeq_end s
  | VNone => serialize_none
  | VSome x => serialize_some (serialize x)
  | VStruct fs =>
      m <- serialize_struct ;; m <- serialize_fields (fields fs) m ;; SerializeStruct_end m
  | VUnitVariant n => serialize_unit_variant n
  | VNewtypeVariant n x => serialize_newtype_variant n (serialize x)
  | VTupleVariant n xs =>
      s <- serialize_tuple_variant n ;; s <- serialize_elements (elems xs) s ;;
      SerializeTupleVariant_end s
  | VStructVariant n fs =>
      m <- serialize_struct_variant n ;; m <- serialize_fields (fields fs) m ;;
      SerializeStructVariant_end m
  end.

(** [fn to_string] and [fn to_string_with_capacity]. *)
Definition to_string (v : val) : result (list tok) :=
  match serialize v StringBuilder_new with
  | (Ok _, builder) => into_string builder
  | (Err e, _) => Err e
  end.

Definition to_string_with_capacity (v : val) (capacity : Z) : result (list tok) :=
  match serialize v (StringBuilder_with_capacity capacity) with
  | (Ok _, builder) => into_string builder
  | (Err e, _) => Err e
  end.

Example to_string_ex :
  to_string (VSeq [VSeq []; VStruct [("a"%string, VI64 1); ("b"%string, VNone)]; VUnitVariant "Red"])
  = Ok [TStartArray; TStartArray; TEndArray; TComma; TStartObject; TString "a"; TColon;
        TI64 1; TComma; TString "b"; TColon; TNull; TEndObject; TComma; TString "Red";
        TEndArray].
Proof. reflexivity. Qed.

(* ================================================================= *)
(** ** Sequence, map, option and variant access ([src/serde/de.rs]) *)

(** [SeqAccessor(ArrayIter)]: [next_element_seed]. *)
Definition next_element_seed {V} (seed : Element -> result V) (it : list Element)
  : result (option V) * list Element :=
  match it with
  | element :: rest => (map_result Some (seed element), rest)
  | [] => (Ok None, [])
  end.

(** [fn deserialize_seq]: [visitor.visit_seq(SeqAccessor(array.iter()))]. *)
Definition deserialize_seq {A} (visit_seq : list Element -> result A) (el : Element) : result A :=
  array <- get_array el ;; visit_seq array.

(** [fn deserialize_map]: [visitor.visit_map(MapAccessor::new(object.iter()))]. *)
Definition deserialize_map {A} (visit_map : MapAccessor -> result A) (el : Element) : result A :=
  object <- get_object el ;; visit_map (MapAccessor_new object).

(** [fn deserialize_option]. *)
Definition deserialize_option {A} (visit_some : Element -> result A) (visit_none : result A)
  (el : Element) : result A :=
  if is_null el then visit_none else visit_some el.

(** The [Variant] of the two [EnumAccess] impls: serde's [UnitOnly] for a
    string node, [VariantDeserializer] for an object node. *)
Inductive VariantAccess :=
| UnitOnly
| VariantDeserializer (el : Element).

(** [EnumAccess::variant_seed]: the variant name is read through a
    [StrDeserializer] or a [StringDeserializer]. *)
Definition variant_seed {V} (seed : string -> result V) (data : EnumAccess)
  : result (V * VariantAccess) :=
  match data with
  | EnumStr s => v <- seed s ;; ret (v, UnitOnly)
  | EnumObj ed => v <- seed (ed_variant ed) ;; ret (v, VariantDeserializer (ed_value ed))
  end.

(** serde's [Error::invalid_type(Unexpected::UnitVariant, exp)]. *)
Definition invalid_type_unit_variant (exp : string) : SimdJsonError :=
  Serde ("invalid type: unit variant, expected " ++ exp).

Definition unit_variant (va : VariantAccess) : result unit :=
  match va with
  | UnitOnly => Ok tt
  | VariantDeserializer _ => Err (de_error "expected a string for unit variant, got an object key")
  end.

Definition newtype_variant_seed {A} (va : VariantAccess) (seed : Element -> result A) : result A :=
  match va with
  | UnitOnly => Err (invalid_type_unit_variant "newtype variant")
  | VariantDeserializer el => seed el
  end.

Definition tuple_variant {A} (va : VariantAccess) (visit_seq : list Element -> result A) : result A :=
  match va with
  | UnitOnly => Err (invalid_type_unit_variant "tuple variant")
  | VariantDeserializer el => deserialize_seq visit_seq el
  end.

Definition struct_variant {A} (va : VariantAccess) (visit_map : MapAccessor -> result A) : result A :=
  match va with
  | UnitOnly => Err (invalid_type_unit_variant "struct variant")
  | VariantDeserializer el => deserialize_map visit_map el
  end.

(* ================================================================= *)
(** ** Types and their derived [Deserialize] impls *)

Inductive ty :=
| TyBool
| TyI64
| TyU64
| TyF64
| TyString
| TyUnit
| TyVec (t : ty)
| TyTuple (ts : list ty)
| TyOption (t : ty)
| TyStruct (fields : list (string * ty))
| TyEnum (variants : list (string * vshape))
with vshape :=
| ShUnit
| ShNewtype (t : ty)
| ShTuple (ts : list ty)
| ShStruct (fields : list (string * ty)).

(** The visitor of [Vec<T>]: [while let Some(value) = seq.next_element()? { .. }]. *)
Fixpoint vec_visit_seq (de_elem : Element -> result val) (it : list Element) : result (list val) :=
  match it with
  | [] => Ok []
  | _ :: rest =>
      match next_element_seed de_elem it with
      | (Ok (Some v), _) => vs <- vec_visit_seq de_elem rest ;; ret (v :: vs)
      | (Ok None, _) => Ok []
      | (Err e, _) => Err e
      end
  end.

(** The visitor of a tuple (and of a tuple variant): one
    [next_element] per component, [invalid_length] when the sequence
    ends early, trailing elements not read. *)
Fixpoint tuple_visit_seq (des : list (Element -> result val)) (it : list Element)
  : result (list val) :=
  match des with
  | [] => Ok []
  | de_i :: des' =>
      match next_element_seed de_i it with
      | (Ok (Some v), it') => vs <- tuple_visit_seq des' it' ;; ret (v :: vs)
      | (Ok None, _) => Err (Serde "invalid length")
      | (Err e, _) => Err e
      end
  end.

(** The field identifier of a derived struct: the index of a known field
    name, [None] for [__ignore]. *)
Fixpoint field_index (names : list string) (key : string) : option nat :=
  match names with
  | [] => None
  | n :: rest =>
      if String.eqb n key then Some 0%nat
      else option_map S (field_index rest key)
  end.

(** [IgnoredAny] through [deserialize_ignored_any]: [deserialize_any]
    dispatches on the node's own tag, whose accessor succeeds, so the walk
    never fails. *)
Definition ignored_any (el : Element) : result unit := Ok tt.

(** One field of a derived struct: its name, the value used when the key
    is absent ([missing_field]: [None] for an [Option] field, an error
    otherwise) and the field type's [Deserialize]. *)
Record field_de := {
  fd_name : string;
  fd_missing : result val;
  fd_de : Element -> result val }.

Definition missing_value (name : string) (t : ty) : result val :=
  match t with
  | TyOption _ => Ok VNone
  | _ => Err (Serde ("missing field `" ++ name ++ "`"))
  end.

(** The [while let Some(key) = map.next_key()?] loop of a derived
    [visit_map], over the accessor's state: each step consumes one pair of
    the iterator. *)
Fixpoint struct_loop (fields : list field_de) (slots : list (option val))
  (it : list (string * Element)) (pending : option Element) : result (list (option val)) :=
  match it with
  | [] => Ok slots
  | _ :: rest =>
      let map := {| iter := it; pending_value := pending |} in
      match next_key_seed (fun k => Ok (field_index (List.map fd_name fields) k)) map with
      | (Err e, _) => Err e
      | (Ok None, _) => Ok slots
      | (Ok (Some (Some i)), map1) =>
          match nth_error slots i, nth_error fields i with
          | Some (Some _), Some f => Err (Serde ("duplicate field `" ++ fd_name f ++ "`"))
          | _, Some f =>
              match next_value_seed (fd_de f) map1 with
              | (Ok v, map2) =>
                  struct_loop fields (firstn i slots ++ Some v :: skipn (S i) slots) rest
                    (pending_value map2)
              | (Err e, _) => Err e
              end
          | _, None => Err (Serde "unknown field index")
          end
      | (Ok (Some None), map1) =>
          match next_value_seed ignored_any map1 with
          | (Ok _, map2) => struct_loop fields slots rest (pending_value map2)
          | (Err e, _) => Err e
          end
      end
  end.

(** After the loop: every field takes its value, or its missing value. *)
Fixpoint struct_finish (fields : list field_de) (slots : list (option val))
  : result (list (string * val)) :=
  match fields, slots with
  | f :: fs, s :: ss =>
      v <- match s with Some v => Ok v | None => fd_missing f end ;;
      rest <- struct_finish fs ss ;;
      ret ((fd_name f, v) :: rest)
  | _, _ => Ok []
  end.

Definition struct_visit_map (fields : list field_de) (map : MapAccessor)
  : result (list (string * val)) :=
  slots <- struct_loop fields (repeat None (List.length fields)) (iter map) (pending_value map) ;;
  struct_finish fields slots.

(** The visitor of a derived enum: read the variant identifier (an
    unknown name is an error), then let the variant's shape drive the
    [VariantAccess]. *)
Definition enum_visit (variants : list (string * (VariantAccess -> result val)))
  (data : EnumAccess) : result val :=
  p <- variant_seed
         (fun name =>
            match find (fun nv => String.eqb (fst nv) name) variants with
            | Some nv => Ok nv
            | None => Err (Serde ("unknown variant `" ++ name ++ "`"))
            end) data ;;
  let '((_, visit_variant), va) := p in
  visit_variant va.

Fixpoint deserialize (t : ty) (el : Element) {struct t} : result val :=
  let des := fix go (ts : list ty) : list (Element -> result val) :=
      match ts with [] => [] | t :: r => deserialize t :: go r end in
  let fields := fix go (fs : list (string * ty)) : list field_de :=
      match fs with
      | [] => []
      | (n, t) :: r =>
          {| fd_name := n; fd_missing := missing_value n t; fd_de := deserialize t |} :: go r
      end in
  let variants := fix go (vs : list (string * vshape))
      : list (string * (VariantAccess -> result val)) :=
      match vs with [] => [] | (n, s) :: r => (n, deserialize_variant n s) :: go r end in
  match t with
  | TyBool => b <- deserialize_bool el ;; ret (VBool b)
  | TyI64 => v <- deserialize_i64 el ;; ret (VI64 v)
  | TyU64 => v <- deserialize_u64 el ;; ret (VU64 v)
  | TyF64 => v <- deserialize_f64 el ;; ret (VF64 v)
  | TyString => s <- deserialize_string el ;; ret (VStr s)
  | TyUnit => _ <- deserialize_unit el ;; ret VUnit
  | TyVec t' => xs <- deserialize_seq (vec_visit_seq (deserialize t')) el ;; ret (VSeq xs)
  | TyTuple ts => xs <- deserialize_seq (tuple_visit_seq (des ts)) el ;; ret (VTuple xs)
  | TyOption t' =>
      deserialize_option (fun el => v <- deserialize t' el ;; ret (VSome v)) (Ok VNone) el
  | TyStruct fs => xs <- deserialize_map (struct_visit_map (fields fs)) el ;; ret (VStruct xs)
  | TyEnum vs => deserialize_enum (enum_visit (variants vs)) el
  end
with deserialize_variant (n : string) (s : vshape) (va : VariantAccess) {struct s} : result val :=
  let des := fix go (ts : list ty) : list (Element -> result val) :=
      match ts with [] => [] | t :: r => deserialize t :: go r end in
  let fields := fix go (fs : list (string * ty)) : list field_de :=
      match fs with
      | [] => []
      | (n, t) :: r =>
          {| fd_name := n; fd_missing := missing_value n t; fd_de := deserialize t |} :: go r
      end in
  match s with
  | ShUnit => _ <- unit_variant va ;; ret (VUnitVariant n)
  | ShNewtype t => v <- newtype_variant_seed va (deserialize t) ;; ret (VNewtypeVariant n v)
  | ShTuple ts => xs <- tuple_variant va (tuple_visit_seq (des ts)) ;; ret (VTupleVariant n xs)
  | ShStruct fs =>
      xs <- struct_variant va (struct_visit_map (fields fs)) ;; ret (VStructVariant n xs)
  end.

(** [fn from_element]: [T::deserialize(element)]. *)
Definition from_element (t : ty) (el : Element) : result val := deserialize t el.

(* ================================================================= *)
(** ** Reading the output back: the DOM parser *)

(** Modelled from the spec: simdjson's DOM parser (§1, §6: an external
    collaborator) applied to the text the builder wrote.  Each token's
    text reads back as the node with that token's value; an [i64] token
    gives an [Int64] node, a [u64] token an [UInt64] node. *)
Fixpoint parse_value (fuel : nat) (ts : list tok) {struct fuel}
  : option (Element * list tok) :=
  match fuel with
  | O => None
  | S f =>
      match ts with
      | TNull :: r => Some (ENull, r)
      | TBool b :: r => Some (EBool b, r)
      | TI64 v :: r => Some (EInt64 v, r)
      | TU64 v :: r => Some (EUInt64 v, r)
      | TF64 d :: r => Some (EDouble d, r)
      | TString s :: r => Some (EString s, r)
      | TStartArray :: TEndArray :: r => Some (EArray [], r)
      | TStartArray :: r =>
          match parse_value f r with
          | Some (e, r1) =>
              match parse_elements f r1 with
              | Some (es, r2) => Some (EArray (e :: es), r2)
              | None => None
              end
          | None => None
          end
      | TStartObject :: TEndObject :: r => Some (EObject [], r)
      | TStartObject :: TString k :: TColon :: r =>
          match parse_value f r with
          | Some (e, r1) =>
              match parse_members f r1 with
              | Some (kvs, r2) => Some (EObject ((k, e) :: kvs), r2)
              | None => None
              end
          | None => None
          end
      | _ => None
      end
  end
with parse_elements (fuel : nat) (ts : list tok) {struct fuel}
  : option (list Element * list tok) :=
  match fuel with
  | O => None
  | S f =>
      match ts with
      | TEndArray :: r => Some ([], r)
      | TComma :: r =>
          match parse_value f r with
          | Some (e, r1) =>
              match parse_elements f r1 with
              | Some (es, r2) => Some (e :: es, r2)
              | None => None
              end
          | None => None
          end
      | _ => None
      end
  end
with parse_members (fuel : nat) (ts : list tok) {struct fuel}
  : option (list (string * Element) * list tok) :=
  match fuel with
  | O => None
  | S f =>
      match ts with
      | TEndObject :: r => Some ([], r)
      | TComma :: TString k :: TColon :: r =>
          match parse_value f r with
          | Some (e, r1) =>
              match parse_members f r1 with
              | Some (kvs, r2) => Some ((k, e) :: kvs, r2)
              | None => None
              end
          | None => None
          end
      | _ => None
      end
  end.

(** A whole document: one value and nothing after it. *)
Definition parse (ts : list tok) : option Element :=
  match parse_value (List.length ts) ts with
  | Some (e, []) => Some e
  | _ => None
  end.

Definition Shape_ty : ty :=
  TyEnum [("Circle"%string, ShNewtype TyF64);
          ("Rectangle"%string, ShStruct [("width"%string, TyF64); ("height"%string, TyF64)]);
          ("Pair"%string, ShTuple [TyI64; TyString]);
          ("Empty"%string, ShUnit)].

Definition shape_vals : list val :=
  [VNewtypeVariant "Circle" (VF64 (S754_finite false 3 (-1)));
   VStructVariant "Rectangle" [("width"%string, VF64 (S754_finite false 5 1));
                               ("height"%string, VF64 (S754_finite false 5 0))];
   VTupleVariant "Pair" [VI64 (-7); VStr "x"];
   VUnitVariant "Empty"].

Example roundtrip_shapes_ex :
  List.map (fun v => match to_string v with
                     | Ok out => match parse out with
                                 | Some el => from_element (TyVec Shape_ty) el
                                 | None => Err (Serde "parse")
                                 end
                     | Err e => Err e
                     end) [VSeq shape_vals]
  = [Ok (VSeq shape_vals)].
Proof. reflexivity. Qed.

Example struct_reordered_ex :
  from_element (TyStruct [("a"%string, TyI64); ("b"%string, TyOption TyBool)])
    (EObject [("x"%string, ENull); ("a"%string, EInt64 3)])
  = Ok (VStruct [("a"%string, VI64 3); ("b"%string, VNone)]).
Proof. reflexivity. Qed.

(* ================================================================= *)
(** ** Narrowing, as a range check *)

(** The error of a failed narrowing: ["<src> value <v> out of range for <dst>"]. *)
Definition overflow (src : string) (v : Z) (dst : string) : SimdJsonError :=
  Serde (src ++ " value " ++ string_of_Z v ++ " out of range for " ++ dst).

(** Narrowing [r] to [lo..hi]. *)
Definition checked (lo hi : Z) (src dst : string) (r : result Z) : result Z :=
  match r with
  | Ok v => if (lo <=? v) && (v <=? hi) then Ok v else Err (overflow src v dst)
  | Err e => Err e
  end.

(* ================================================================= *)
(** ** Encodings, decodings and typing of values *)

(** The tokens of the elements after the first: each one preceded by a comma. *)
Definition comma_each (es : list (list tok)) : list tok :=
  List.concat (List.map (fun e => TComma :: e) es).

(** A list of element encodings as the serializer joins them: the first
    element as is, every later one preceded by a comma. *)
Definition sep_by_comma (es : list (list tok)) : list tok :=
  match es with [] => [] | e :: rest => e ++ comma_each rest end.

(** The text of a sequence: an opening bracket, the elements joined by
    [sep_by_comma], a closing bracket. *)
Definition seq_text (es : list (list tok)) : list tok :=
  [TStartArray] ++ sep_by_comma es ++ [TEndArray].

(** The text of an object: braces around the members ["key": value]
    joined by [sep_by_comma]. *)
Definition obj_text (fs : list (string * list tok)) : list tok :=
  [TStartObject] ++ sep_by_comma (List.map (fun '(k, e) => TString k :: TColon :: e) fs)
  ++ [TEndObject].

(** The tokens [serialize] appends for a value (for finite floats). *)
Fixpoint enc (v : val) : list tok :=
  match v with
  | VBool b => [TBool b]
  | VI64 z => [TI64 z]
  | VU64 z => [TU64 z]
  | VF64 f => [TF64 f]
  | VStr s => [TString s]
  | VUnit => [TNull]
  | VSeq xs => seq_text (List.map enc xs)
  | VTuple xs => seq_text (List.map enc xs)
  | VNone => [TNull]
  | VSome x => enc x
  | VStruct fs => obj_text (List.map (fun '(k, x) => (k, enc x)) fs)
  | VUnitVariant n => [TString n]
  | VNewtypeVariant n x => obj_text [(n, enc x)]
  | VTupleVariant n xs => obj_text [(n, seq_text (List.map enc xs))]
  | VStructVariant n fs => obj_text [(n, obj_text (List.map (fun '(k, x) => (k, enc x)) fs))]
  end.

(** Every float inside the value is finite. *)
Fixpoint fin_val (v : val) : bool :=
  match v with
  | VF64 f => is_finite f
  | VSeq xs | VTuple xs | VTupleVariant _ xs => forallb fin_val xs
  | VSome x | VNewtypeVariant _ x => fin_val x
  | VStruct fs | VStructVariant _ fs => forallb (fun '(_, x) => fin_val x) fs
  | _ => true
  end.

(** Induction over [val] through its nested lists. *)
Section val_ind_nested.
Variable P : val -> Prop.
Hypothesis HBool : forall b, P (VBool b).
Hypothesis HI64 : forall z, P (VI64 z).
Hypothesis HU64 : forall z, P (VU64 z).
Hypothesis HF64 : forall f, P (VF64 f).
Hypothesis HStr : forall s, P (VStr s).
Hypothesis HUnit : P VUnit.
Hypothesis HSeq : forall xs, Forall P xs -> P (VSeq xs).
Hypothesis HTuple : forall xs, Forall P xs -> P (VTuple xs).
Hypothesis HNone : P VNone.
Hypothesis HSome : forall x, P x -> P (VSome x).
Hypothesis HStruct : forall fs, Forall (fun kx => P (snd kx)) fs -> P (VStruct fs).
Hypothesis HUnitVariant : forall n, P (VUnitVariant n).
Hypothesis HNewtypeVariant : forall n x, P x -> P (VNewtypeVariant n x).
Hypothesis HTupleVariant : forall n xs, Forall P xs -> P (VTupleVariant n xs).
Hypothesis HStructVariant : forall n fs, Forall (fun kx => P (snd kx)) fs -> P (VStructVariant n fs).

Fixpoint val_ind_nested (v : val) : P v :=
  let fix elems (xs : list val) : Forall P xs :=
    match xs with
    | [] => Forall_nil _
    | x :: r => Forall_cons _ (val_ind_nested x) (elems r)
    end in
  let fix fields (fs : list (string * val)) : Forall (fun kx => P (snd kx)) fs :=
    match fs with
    | [] => Forall_nil _
    | (k, x) :: r => Forall_cons (P := fun kx => P (snd kx)) (k, x) (val_ind_nested x) (fields r)
    end in
  match v with
  | VBool b => HBool b
  | VI64 z => HI64 z
  | VU64 z => HU64 z
  | VF64 f => HF64 f
  | VStr s => HStr s
  | VUnit => HUnit
  | VSeq xs => HSeq xs (elems xs)
  | VTuple xs => HTuple xs (elems xs)
  | VNone => HNone
  | VSome x => HSome x (val_ind_nested x)
  | VStruct fs => HStruct fs (fields fs)
  | VUnitVariant n => HUnitVariant n
  | VNewtypeVariant n x => HNewtypeVariant n x (val_ind_nested x)
  | VTupleVariant n xs => HTupleVariant n xs (elems xs)
  | VStructVariant n fs => HStructVariant n fs (fields fs)
  end.
End val_ind_nested.

(** [m] succeeds and appends exactly [ts] to any builder. *)
Definition appends (m : M unit) (ts : list tok) : Prop :=
  forall sb, m sb = (Ok tt, append_toks sb ts).

(** One object member: its key, a colon, its value. *)
Definition member_text (kv : string * list tok) : list tok :=
  let '(k, e) := kv in TString k :: TColon :: e.

(** The DOM tree the parser builds from [enc v]. *)
Fixpoint to_elem (v : val) : Element :=
  match v with
  | VBool b => EBool b
  | VI64 z => EInt64 z
  | VU64 z => EUInt64 z
  | VF64 f => EDouble f
  | VStr s => EString s
  | VUnit => ENull
  | VSeq xs => EArray (List.map to_elem xs)
  | VTuple xs => EArray (List.map to_elem xs)
  | VNone => ENull
  | VSome x => to_elem x
  | VStruct fs => EObject (List.map (fun '(k, x) => (k, to_elem x)) fs)
  | VUnitVariant n => EString n
  | VNewtypeVariant n x => EObject [(n, to_elem x)]
  | VTupleVariant n xs => EObject [(n, EArray (List.map to_elem xs))]
  | VStructVariant n fs => EObject [(n, EObject (List.map (fun '(k, x) => (k, to_elem x)) fs))]
  end.

(** [e] parses to [el], whatever tokens follow it. *)
Definition parses_as (e : list tok) (el : Element) : Prop :=
  forall f rest, (List.length e <= f)%nat -> parse_value f (e ++ rest) = Some (el, rest).

(** A member's key is kept and its value tokens parse to its node. *)
Definition member_parses (ke : string * list tok) (kel : string * Element) : Prop :=
  fst ke = fst kel /\ parses_as (snd ke) (snd kel).

(** The payload shape of variant [n] in an enum's declaration, as
    [variant_seed] looks it up (first match). *)
Definition variant_shape (n : string) (vs : list (string * vshape)) : option vshape :=
  option_map snd (find (fun ns => String.eqb (fst ns) n) vs).

(** Types whose values may serialize as [null]. *)
Definition nullable (t : ty) : bool :=
  match t with TyUnit | TyOption _ => true | _ => false end.

(** [v] is a value of type [t]. *)
Inductive has_ty : val -> ty -> Prop :=
| ht_bool b : has_ty (VBool b) TyBool
| ht_i64 z : has_ty (VI64 z) TyI64
| ht_u64 z : has_ty (VU64 z) TyU64
| ht_f64 f : has_ty (VF64 f) TyF64
| ht_str s : has_ty (VStr s) TyString
| ht_unit : has_ty VUnit TyUnit
| ht_seq xs t : Forall (fun x => has_ty x t) xs -> has_ty (VSeq xs) (TyVec t)
| ht_tuple xs ts : Forall2 has_ty xs ts -> has_ty (VTuple xs) (TyTuple ts)
| ht_none t : has_ty VNone (TyOption t)
| ht_some x t : has_ty x t -> has_ty (VSome x) (TyOption t)
| ht_struct fs fts :
    Forall2 (fun kx kt => fst kx = fst kt /\ has_ty (snd kx) (snd kt)) fs fts ->
    has_ty (VStruct fs) (TyStruct fts)
| ht_unit_variant n vs :
    variant_shape n vs = Some ShUnit -> has_ty (VUnitVariant n) (TyEnum vs)
| ht_newtype_variant n x t vs :
    variant_shape n vs = Some (ShNewtype t) -> has_ty x t ->
    has_ty (VNewtypeVariant n x) (TyEnum vs)
| ht_tuple_variant n xs ts vs :
    variant_shape n vs = Some (ShTuple ts) -> Forall2 has_ty xs ts ->
    has_ty (VTupleVariant n xs) (TyEnum vs)
| ht_struct_variant n fs fts vs :
    variant_shape n vs = Some (ShStruct fts) ->
    Forall2 (fun kx kt => fst kx = fst kt /\ has_ty (snd kx) (snd kt)) fs fts ->
    has_ty (VStructVariant n fs) (TyEnum vs).

(** Types that round-trip: an [Option]'s payload is not itself [()] or an
    [Option] (both would serialize [Some] as [null]) and field names are
    distinct. *)
Inductive wf_ty : ty -> Prop :=
| wf_bool : wf_ty TyBool
| wf_i64 : wf_ty TyI64
| wf_u64 : wf_ty TyU64
| wf_f64 : wf_ty TyF64
| wf_string : wf_ty TyString
| wf_unit : wf_ty TyUnit
| wf_vec t : wf_ty t -> wf_ty (TyVec t)
| wf_tuple ts : Forall wf_ty ts -> wf_ty (TyTuple ts)
| wf_option t : wf_ty t -> nullable t = false -> wf_ty (TyOption t)
| wf_struct fts :
    NoDup (List.map fst fts) -> Forall (fun kt => wf_ty (snd kt)) fts -> wf_ty (TyStruct fts)
| wf_enum vs : Forall (fun ns => wf_shape (snd ns)) vs -> wf_ty (TyEnum vs)
with wf_shape : vshape -> Prop :=
| wf_sh_unit : wf_shape ShUnit
| wf_sh_newtype t : wf_ty t -> wf_shape (ShNewtype t)
| wf_sh_tuple ts : Forall wf_ty ts -> wf_shape (ShTuple ts)
| wf_sh_struct fts :
    NoDup (List.map fst fts) -> Forall (fun kt => wf_ty (snd kt)) fts -> wf_shape (ShStruct fts).

(** The field deserializer [deserialize (TyStruct _)] builds for a field. *)
Definition mk_field (nt : string * ty) : field_de :=
  {| fd_name := fst nt; fd_missing := missing_value (fst nt) (snd nt); fd_de := deserialize (snd nt) |}.

(** A field deserializer expected for a member [kx]. *)
Definition field_ok (f : field_de) (kx : string * val) : Prop :=
  fd_name f = fst kx /\ fd_de f (to_elem (snd kx)) = Ok (snd kx).

(** The DOM member of a struct field. *)
Definition to_member (kx : string * val) : string * Element := (fst kx, to_elem (snd kx)).

(** Deserializing [to_elem x] at any well-formed type of [x] gives [x] back. *)
Definition de_ok (x : val) : Prop :=
  forall t, has_ty x t -> wf_ty t -> deserialize t (to_elem x) = Ok x.

(** [m]'s outcome and appended tokens do not depend on the builder it runs on. *)
Definition framed {A} (m : M A) : Prop :=
  exists r ts, forall sb, m sb = (r, append_toks sb ts).

(* ================================================================= *)
(** ** Further deserializer paths ([src/serde/de.rs])

    serde's [Visitor] as [deserialize_any] uses it, and the [IgnoredAny]
    walk behind [deserialize_ignored_any]. *)

(** serde's [Visitor], with the methods [deserialize_any] calls. *)
Record Visitor (A : Type) := {
  visit_unit : result A;
  visit_bool : bool -> result A;
  visit_string : string -> result A;
  visit_u64 : Z -> result A;
  visit_i64 : Z -> result A;
  visit_seq : list Element -> result A;
  visit_map : MapAccessor -> result A;
  visit_f64 : f64 -> result A }.
Arguments visit_unit {A} _.
Arguments visit_bool {A} _.
Arguments visit_string {A} _.
Arguments visit_u64 {A} _.
Arguments visit_i64 {A} _.
Arguments visit_seq {A} _.
Arguments visit_map {A} _.
Arguments visit_f64 {A} _.

(** [fn deserialize_any]: dispatch on [get_type]; each arm is the
    [deserialize_*] method of that type, which reads the payload with the
    accessor of the same type and hands it to the visitor. *)
Definition deserialize_any {A} (visitor : Visitor A) (el : Element) : result A :=
  match get_type el with
  | NullValue => visit_unit visitor
  | Bool => b <- get_bool el ;; visit_bool visitor b
  | String_ => s <- get_string el ;; visit_string visitor s
  | UInt64 => v <- get_uint64 el ;; visit_u64 visitor v
  | Int64 => v <- get_int64 el ;; visit_i64 visitor v
  | Array => deserialize_seq (visit_seq visitor) el
  | Object => deserialize_map (visit_map visitor) el
  | Double => d <- get_double el ;; visit_f64 visitor d
  end.

(** [fn deserialize_ignored_any]: [self.deserialize_any(visitor)]. *)
Definition deserialize_ignored_any {A} (visitor : Visitor A) (el : Element) : result A :=
  deserialize_any visitor el.

(** [IgnoredAny]'s [visit_seq]: [while let Some(IgnoredAny) = seq.next_element()? {}]. *)
Fixpoint ignore_seq (child : Element -> result unit) (it : list Element) : result unit :=
  match it with
  | [] => Ok tt
  | _ :: rest =>
      match next_element_seed child it with
      | (Ok (Some _), _) => ignore_seq child rest
      | (Ok None, _) => Ok tt
      | (Err e, _) => Err e
      end
  end.

(** [IgnoredAny]'s [visit_map]: [while let Some((IgnoredAny, IgnoredAny)) =
    map.next_entry()? {}]; a key read into [IgnoredAny] through the
    [StringDeserializer] always succeeds. *)
Fixpoint ignore_map (child : Element -> result unit) (it : list (string * Element))
  (pending : option Element) : result unit :=
  match it with
  | [] => Ok tt
  | _ :: rest =>
      match next_key_seed (fun _ => Ok tt) {| iter := it; pending_value := pending |} with
      | (Ok (Some _), map1) =>
          match next_value_seed child map1 with
          | (Ok _, map2) => ignore_map child rest (pending_value map2)
          | (Err e, _) => Err e
          end
      | (Ok None, _) => Ok tt
      | (Err e, _) => Err e
      end
  end.

(** serde's [IgnoredAny] visitor: scalars are accepted as they are,
    sequences and maps are walked, [child] reading each element and each
    value. *)
Definition ignored_any_visitor (child : Element -> result unit) : Visitor unit := {|
  visit_unit := Ok tt;
  visit_bool := fun _ => Ok tt;
  visit_string := fun _ => Ok tt;
  visit_u64 := fun _ => Ok tt;
  visit_i64 := fun _ => Ok tt;
  visit_seq := ignore_seq child;
  visit_map := fun m => ignore_map child (iter m) (pending_value m);
  visit_f64 := fun _ => Ok tt |}.

(** [IgnoredAny::deserialize] through [deserialize_ignored_any], unfolded
    [fuel] times: a child is read by the same walk one level down.  The
    fuel only bounds the unfolding (Rust recurses without a bound); any
    fuel above the tree's depth gives the same result. *)
Fixpoint ignored_any_walk (fuel : nat) (el : Element) : result unit :=
  match fuel with
  | O => Err (Serde "recursion limit")
  | S f => deserialize_ignored_any (ignored_any_visitor (ignored_any_walk f)) el
  end.

(** [t] is an [Option<_>] type, whose [missing_value] is [None]. *)
Definition is_option (t : ty) : Prop := exists t', t = TyOption t'.



(* ================================================================= *)
(** ** Further serializer paths ([src/serde/ser.rs]) *)

(** The first [Some] of a list. *)
Fixpoint first_some {A} (l : list (option A)) : option A :=
  match l with
  | [] => None
  | Some a :: _ => Some a
  | None :: r => first_some r
  end.

(** The first non-finite [f64] of a value, in the order [serialize]
    visits it. *)
Fixpoint first_non_finite (v : val) : option f64 :=
  match v with
  | VF64 f => if is_finite f then None else Some f
  | VSeq xs | VTuple xs | VTupleVariant _ xs => first_some (List.map first_non_finite xs)
  | VSome x | VNewtypeVariant _ x => first_non_finite x
  | VStruct fs | VStructVariant _ fs => first_some (List.map (fun '(_, x) => first_non_finite x) fs)
  | _ => None
  end.

(** The error of [serialize_f64] on a non-finite value. *)
Definition non_finite_error (f : f64) : SimdJsonError :=
  Serde ("cannot serialize non-finite float: " ++ Json.display_non_finite f).

(** [m] fails with [e] on every builder. *)
Definition fails_with (m : M unit) (e : SimdJsonError) : Prop :=
  forall sb, exists sb', m sb = (Err e, sb').

(** [fn serialize_bytes]: the [for (i, byte) in v.iter().enumerate()]
    loop, a comma before every byte but the first; a byte is a [Z] in
    [0, 255], which [*byte as u64] keeps. *)
Fixpoint serialize_bytes_loop (i : nat) (v : list Z) : M unit :=
  match v with
  | [] => ret tt
  | byte :: rest =>
      (if Nat.ltb 0 i then append_comma else ret tt) ;;
      append_u64 byte ;;
      serialize_bytes_loop (S i) rest
  end.

Definition serialize_bytes (v : list Z) : M unit :=
  start_array ;; serialize_bytes_loop 0 v ;; end_array ;; ret tt.

(** [SerializeMap for MapSerializer]: [serialize_key] writes the comma
    (but before the first entry) and then the key with the key's own
    [Serialize]; [serialize_value] writes a colon and the value. *)
Definition SerializeMap_serialize_key (self : MapSerializer) (key : M unit) : M MapSerializer :=
  (if negb (map_first self) then append_comma else ret tt) ;;
  let self := {| map_first := false |} in
  key ;;
  ret self.

Definition SerializeMap_serialize_value (self : MapSerializer) (value : M unit) : M MapSerializer :=
  append_colon ;;
  value ;;
  ret self.

Definition SerializeMap_end (self : MapSerializer) : M unit := end_object.

(** serde's [Serializer::collect_map] (the [Serialize] impls of
    [BTreeMap] and [HashMap]): [serialize_map], one [serialize_entry]
    (key, then value) per entry, [end]. *)
Fixpoint serialize_entries (entries : list (M unit * M unit)) (m : MapSerializer) : M MapSerializer :=
  match entries with
  | [] => ret m
  | (k, v) :: rest =>
      m <- SerializeMap_serialize_key m k ;;
      m <- SerializeMap_serialize_value m v ;;
      serialize_entries rest m
  end.

Definition collect_map (entries : list (M unit * M unit)) : M unit :=
  m <- serialize_map ;; m <- serialize_entries entries m ;; SerializeMap_end m.

(** The tokens of one map entry whose key and value serialize: the key's
    tokens, a colon, the value's tokens. *)
Definition entry_text (kv : val * val) : list tok := enc (fst kv) ++ TColon :: enc (snd kv).

(* ================================================================= *)
(** ** Characters ([serialize_char] and [deserialize_char])

    A Rust [char] is its scalar value, a [Z]; a Rust [&str] is its UTF-8
    byte sequence, one [ascii] per byte. *)

(** [char::encode_utf8] (Rust core): one to four bytes by the size of
    the code point. *)
Definition encode_utf8 (code : Z) : list Z :=
  if code <? 0x80 then [code]
  else if code <? 0x800 then
    [Z.lor (Z.land (Z.shiftr code 6) 0x1F) 0xC0;
     Z.lor (Z.land code 0x3F) 0x80]
  else if code <? 0x10000 then
    [Z.lor (Z.land (Z.shiftr code 12) 0x0F) 0xE0;
     Z.lor (Z.land (Z.shiftr code 6) 0x3F) 0x80;
     Z.lor (Z.land code 0x3F) 0x80]
  else
    [Z.lor (Z.land (Z.shiftr code 18) 0x07) 0xF0;
     Z.lor (Z.land (Z.shiftr code 12) 0x3F) 0x80;
     Z.lor (Z.land (Z.shiftr code 6) 0x3F) 0x80;
     Z.lor (Z.land code 0x3F) 0x80].

(** [v.to_string()] on a [char]. *)
Definition char_to_string (c : Z) : string :=
  string_of_list_ascii (List.map (fun b => ascii_of_N (Z.to_N b)) (encode_utf8 c)).

(** The bytes of a [&str]. *)
Definition str_bytes (s : string) : list Z :=
  List.map (fun a => Z.of_N (N_of_ascii a)) (list_ascii_of_string s).

(** [utf8_first_byte] and [utf8_acc_cont_byte] (Rust core, [str::validations]). *)
Definition utf8_first_byte (byte width : Z) : Z := Z.land byte (Z.shiftr 0x7F width).
Definition utf8_acc_cont_byte (ch byte : Z) : Z := Z.lor (Z.shiftl ch 6) (Z.land byte 0x3F).

(** [next_code_point] (Rust core, [str::validations]), behind
    [Chars::next]: the decoded code point and the remaining bytes.  Where
    the source reads a continuation byte with [unwrap_unchecked] (present
    on valid UTF-8) the model answers [None]. *)
Definition next_code_point (bytes : list Z) : option (Z * list Z) :=
  match bytes with
  | [] => None
  | x :: r =>
    if x <? 128 then Some (x, r) else
    let init := utf8_first_byte x 2 in
    match r with
    | [] => None
    | y :: r1 =>
      let ch := utf8_acc_cont_byte init y in
      if x >=? 0xE0 then
        match r1 with
        | [] => None
        | z :: r2 =>
          let y_z := utf8_acc_cont_byte (Z.land y 0x3F) z in
          let ch := Z.lor (Z.shiftl init 12) y_z in
          if x >=? 0xF0 then
            match r2 with
            | [] => None
            | w :: r3 =>
              Some (Z.lor (Z.shiftl (Z.land init 7) 18) (utf8_acc_cont_byte y_z w), r3)
            end
          else Some (ch, r2)
        end
      else Some (ch, r1)
    end
  end.

(** [fn serialize_char]: [self.serialize_str(&v.to_string())]. *)
Definition serialize_char (v : Z) : M unit := serialize_str (char_to_string v).

(** [fn deserialize_char], with the visitor's [visit_char] the identity:
    [match (chars.next(), chars.next())]. *)
Definition deserialize_char (el : Element) : result Z :=
  s <- get_string el ;;
  match next_code_point (str_bytes s) with
  | Some (c, rest) =>
      match next_code_point rest with
      | None => ret c
      | Some _ => Err (de_error "expected a single character string")
      end
  | None => Err (de_error "expected a single character string")
  end.

(** Lookups in the result of [element_to_value]. *)
Module JsonExt.
Import Json.

(** [BTreeMap::get] on the sorted association list. *)
Fixpoint map_get (k : string) (m : Map) : option Value :=
  match m with
  | [] => None
  | (k', v') :: rest =>
      match String.compare k k' with
      | Lt => None
      | Eq => Some v'
      | Gt => map_get k rest
      end
  end.

(** The value of the last member named [k] of an object node. *)
Fixpoint last_value (k : string) (kvs : list (string * Element)) : option Element :=
  match kvs with
  | [] => None
  | (k', x) :: rest =>
      match last_value k rest with
      | Some y => Some y
      | None => if String.eqb k' k then Some x else None
      end
  end.

(** The first non-finite double of a node, in iterator order. *)
Fixpoint first_bad_double (el : Element) : option f64 :=
  match el with
  | EDouble f => if is_finite f then None else Some f
  | EArray xs => first_some (List.map first_bad_double xs)
  | EObject kvs => first_some (List.map (fun '(_, x) => first_bad_double x) kvs)
  | _ => None
  end.

(** The error of [element_to_value_inner] on a non-finite double. *)
Definition not_a_number_error (f : f64) : SimdJsonError :=
  Serde ("cannot represent " ++ display_non_finite f ++ " as a JSON number (NaN or Infinity)").

(** The outcome of converting [el] when its depth is within the limit:
    success when every double is finite, the error of the first
    non-finite double otherwise. *)
Definition float_outcome (el : Element) (r : result Value) : Prop :=
  match first_bad_double el with
  | None => exists v, r = Ok v
  | Some f => r = Err (not_a_number_error f)
  end.

Definition converts_float (el : Element) : Prop :=
  forall d, (d + max_depth el <= 128)%nat -> float_outcome el (element_to_value_inner el d).

End JsonExt.

(* ================================================================= *)
(** ** Rounding lemmas on [spec_float]

    [binary_round] shifts the mantissa right to the target precision,
    rounds, and renormalises; once the value is at least [2^emax] the
    final exponent is above [emax - prec] and the result is infinite. *)

Lemma digits2_pos_log2 p : Zpos (digits2_pos p) = Z.log2 (Zpos p) + 1.
Proof.
  induction p as [p IH | p IH |]; simpl digits2_pos.
  - rewrite Pos2Z.inj_succ, IH.
    change (Zpos p~1) with (2 * Zpos p + 1). rewrite Z.log2_succ_double by lia. lia.
  - rewrite Pos2Z.inj_succ, IH.
    change (Zpos p~0) with (2 * Zpos p). rewrite Z.log2_double by lia. lia.
  - reflexivity.
Qed.

Lemma shr_1_m mrs : 0 <= shr_m mrs -> shr_m (shr_1 mrs) = Z.div2 (shr_m mrs).
Proof.
  destruct mrs as [m r s]; simpl. intros H.
  destruct m as [| [p|p|] | p]; try reflexivity; lia.
Qed.

Lemma iter_shr_1_m p mrs :
  0 <= shr_m mrs -> shr_m (iter_pos shr_1 p mrs) = Z.shiftr (shr_m mrs) (Zpos p).
Proof.
  revert mrs. induction p as [p IH | p IH |]; intros mrs H; simpl.
  - assert (H1 : 0 <= shr_m (shr_1 mrs)) by (rewrite shr_1_m by lia; rewrite Z.div2_spec; apply Z.shiftr_nonneg; lia).
    assert (H2 : 0 <= shr_m (iter_pos shr_1 p (shr_1 mrs))) by (rewrite IH by lia; apply Z.shiftr_nonneg; lia).
    rewrite IH by lia. rewrite IH by lia. rewrite shr_1_m by lia. rewrite Z.div2_spec.
    rewrite !Z.shiftr_shiftr by lia. f_equal. lia.
  - assert (H2 : 0 <= shr_m (iter_pos shr_1 p mrs)) by (rewrite IH by lia; apply Z.shiftr_nonneg; lia).
    rewrite IH by lia. rewrite IH by lia. rewrite Z.shiftr_shiftr by lia. f_equal. lia.
  - rewrite shr_1_m by lia. rewrite Z.div2_spec. reflexivity.
Qed.

Lemma shr_spec mrs e n :
  0 <= shr_m mrs ->
  shr_m (fst (shr mrs e n)) = Z.shiftr (shr_m mrs) (Z.max 0 n) /\
  snd (shr mrs e n) = e + Z.max 0 n.
Proof.
  intros H. unfold shr. destruct n as [| p | p]; simpl.
  - rewrite Z.shiftr_0_r. split; lia.
  - rewrite iter_shr_1_m by lia. split; reflexivity.
  - rewrite Z.shiftr_0_r. split; lia.
Qed.

Lemma shiftr_pos m s : 0 < m -> 0 <= s <= Z.log2 m -> 0 < Z.shiftr m s.
Proof.
  intros Hm Hs. rewrite Z.shiftr_div_pow2 by lia.
  apply Z.div_str_pos. split; [apply Z.pow_pos_nonneg; lia |].
  apply Z.le_trans with (2 ^ Z.log2 m); [apply Z.pow_le_mono_r; lia | apply Z.log2_spec; lia].
Qed.

Lemma iter_xO p d : Zpos (Pos.iter xO p d) = Zpos p * 2 ^ Zpos d.
Proof.
  induction d as [| d IH] using Pos.peano_ind.
  - simpl. lia.
  - rewrite Pos.iter_succ. rewrite Pos2Z.inj_succ, Z.pow_succ_r by lia.
    change (Zpos (Pos.iter xO p d)~0) with (2 * Zpos (Pos.iter xO p d)). rewrite IH. lia.
Qed.

Lemma round_nearest_even_ge m l : m <= round_nearest_even m l.
Proof.
  unfold round_nearest_even. destruct l as [| [ | | ]]; try lia.
  destruct (Z.even m); lia.
Qed.

Lemma fexp_shift_bound prec emax m e :
  0 < prec -> 0 < m -> emin prec emax <= e ->
  fexp prec emax (Zdigits2 m + e) - e <= Z.log2 m.
Proof.
  intros Hp Hm He. unfold fexp. destruct m as [| q | q]; try lia.
  simpl Zdigits2. rewrite digits2_pos_log2.
  pose proof (Z.log2_nonneg (Zpos q)). lia.
Qed.

Lemma binary_round_overflow prec emax s m e :
  0 < prec -> emax - prec < Z.log2 (Zpos m) + e - prec + 1 -> 
  emin prec emax <= Z.log2 (Zpos m) + e + 1 - prec ->
  binary_round prec emax s m e = S754_infinity s.
Proof.
  intros Hp Hov Hmin. unfold binary_round.
  set (D := Zpos (digits2_pos m) + e).
  assert (HD : D = Z.log2 (Zpos m) + 1 + e) by (unfold D; rewrite digits2_pos_log2; lia).
  assert (Hfe : fexp prec emax D = D - prec) by (unfold fexp; lia).
  rewrite Hfe.
  destruct (shl_align m e (D - prec)) as [mz ez] eqn:Hsh.
  assert (Hz : Z.log2 (Zpos mz) + 1 + ez = D /\ ez <= D - prec).
  { unfold shl_align in Hsh. destruct (D - prec - e) as [| d | d] eqn:Hd; injection Hsh as <- <-.
    - split; lia.
    - split; lia.
    - rewrite iter_xO, Z.log2_mul_pow2 by lia. split; lia. }
  destruct Hz as [Hz1 Hz2].
  unfold binary_round_aux, shr_fexp.
  set (mrs0 := shr_record_of_loc (Zpos mz) loc_Exact).
  assert (Hm0 : shr_m mrs0 = Zpos mz) by reflexivity.
  set (n1 := fexp prec emax (Zdigits2 (Zpos mz) + ez) - ez).
  assert (Hn1 : n1 = D - prec - ez).
  { unfold n1, fexp. simpl Zdigits2. rewrite digits2_pos_log2. lia. }
  destruct (shr_spec mrs0 ez n1) as [Hm1 He1]; [lia |].
  destruct (shr mrs0 ez n1) as [mrs1 e1] eqn:Hs1. simpl in Hm1, He1.
  try rewrite Hm0 in Hm1.
  assert (Hpos1 : 0 < shr_m mrs1) by (rewrite Hm1; apply shiftr_pos; lia).
  set (m2 := round_nearest_even (shr_m mrs1) (loc_of_shr_record mrs1)).
  assert (Hpos2 : 0 < m2) by (pose proof (round_nearest_even_ge (shr_m mrs1) (loc_of_shr_record mrs1)); unfold m2; lia).
  set (mrs2 := shr_record_of_loc m2 loc_Exact).
  set (n2 := fexp prec emax (Zdigits2 m2 + e1) - e1).
  assert (Hn2 : n2 <= Z.log2 m2).
  { unfold n2. apply fexp_shift_bound; [lia | exact Hpos2 | lia]. }
  destruct (shr_spec mrs2 e1 n2) as [Hm3 He3]; [unfold mrs2; simpl shr_m; lia |].
  destruct (shr mrs2 e1 n2) as [mrs3 e3] eqn:Hs3. simpl in Hm3, He3.
  pose proof (Z.log2_nonneg m2).
  assert (Hpos3 : 0 < shr_m mrs3) by (rewrite Hm3; apply shiftr_pos; [exact Hpos2 | lia]).
  destruct (shr_m mrs3) as [| q | q]; try lia.
  destruct (Z.leb_spec e3 (emax - prec)); [lia | reflexivity].
Qed.

Lemma f64_as_f32_overflow s m e :
  128 <= Z.log2 (Zpos m) + e -> f64_as_f32 (S754_finite s m e) = S754_infinity s.
Proof.
  intros H. unfold f64_as_f32, float_cast, binary_normalize, cond_Zopp.
  pose proof (Z.log2_nonneg (Zpos m)).
  destruct s; simpl; apply binary_round_overflow; unfold emin, f32_prec, f32_emax; lia.
Qed.

(* ================================================================= *)
(** ** Serializer, parser and deserializer lemmas *)

Lemma append_toks_app sb a b : append_toks (append_toks sb a) b = append_toks sb (a ++ b).
Proof. destruct sb; unfold append_toks; simpl. rewrite app_assoc. reflexivity. Qed.

Lemma append_toks_nil sb : append_toks sb [] = sb.
Proof. destruct sb; unfold append_toks; simpl. rewrite app_nil_r. reflexivity. Qed.

Lemma serialize_elements_appends ms es :
  Forall2 appends ms es ->
  forall s sb, exists s',
    serialize_elements ms s sb =
    (Ok s', append_toks sb (if seq_first s then sep_by_comma es else comma_each es)).
Proof.
  induction 1 as [| m e ms es Hm _ IH]; intros [first] sb.
  - exists {| seq_first := first |}. destruct first; simpl; rewrite append_toks_nil; reflexivity.
  - simpl. unfold SerializeSeq_serialize_element. destruct first; simpl.
    + rewrite Hm. destruct (IH {| seq_first := false |} (append_toks sb e)) as [s' Hs'].
      exists s'. rewrite Hs'. simpl. rewrite append_toks_app. reflexivity.
    + rewrite Hm. destruct (IH {| seq_first := false |} (append_toks (append_toks sb [TComma]) e)) as [s' Hs'].
      exists s'. rewrite Hs'. simpl. rewrite !append_toks_app. reflexivity.
Qed.

Lemma elems_eq ys :
  (fix go (xs : list val) : list (M unit) :=
     match xs with [] => [] | x :: r => serialize x :: go r end) ys = List.map serialize ys.
Proof. induction ys; simpl; congruence. Qed.

Lemma fields_eq ys :
  (fix go (fs : list (string * val)) : list (string * M unit) :=
     match fs with [] => [] | (k, x) :: r => (k, serialize x) :: go r end) ys
  = List.map (fun '(k, x) => (k, serialize x)) ys.
Proof. induction ys as [|[k x] ys IH]; simpl; congruence. Qed.

Lemma serialize_VSeq xs :
  serialize (VSeq xs) =
  (s <- serialize_seq ;; s <- serialize_elements (List.map serialize xs) s ;; SerializeSeq_end s).
Proof. simpl. rewrite elems_eq. reflexivity. Qed.

Lemma serialize_VStruct fs :
  serialize (VStruct fs) =
  (m <- serialize_struct ;; m <- serialize_fields (List.map (fun '(k, x) => (k, serialize x)) fs) m ;;
   SerializeStruct_end m).
Proof. simpl. rewrite fields_eq. reflexivity. Qed.

Lemma serialize_fields_appends (fs : list (string * M unit)) (es : list (string * list tok)) :
  Forall2 (fun f e => fst f = fst e /\ appends (snd f) (snd e)) fs es ->
  forall m sb, exists m',
    serialize_fields fs m sb =
    (Ok m', append_toks sb (if map_first m then sep_by_comma (List.map member_text es)
                            else comma_each (List.map member_text es))).
Proof.
  induction 1 as [| kf ke fs es Hkm _ IH]; intros [first] sb;
    [| destruct kf as [k f], ke as [k' e], Hkm as [Hk Hm]; simpl in Hk, Hm; subst k'].
  - exists {| map_first := first |}. destruct first; simpl; rewrite append_toks_nil; reflexivity.
  - simpl. unfold SerializeStruct_serialize_field. destruct first; simpl.
    + rewrite Hm. destruct (IH {| map_first := false |} (append_toks (append_toks (append_toks sb [TString k]) [TColon]) e)) as [m' Hm'].
      exists m'. rewrite Hm'. simpl. rewrite !append_toks_app. reflexivity.
    + rewrite Hm. destruct (IH {| map_first := false |} (append_toks (append_toks (append_toks (append_toks sb [TComma]) [TString k]) [TColon]) e)) as [m' Hm'].
      exists m'. rewrite Hm'. simpl. rewrite !append_toks_app. reflexivity.
Qed.

Lemma appends_bind_emit t (k : M unit) ts :
  appends k ts -> appends (emit t ;; k) (t :: ts).
Proof. intros H sb. simpl. rewrite H, append_toks_app. reflexivity. Qed.

Lemma obj_text_eq fs :
  obj_text fs = [TStartObject] ++ sep_by_comma (List.map member_text fs) ++ [TEndObject].
Proof. reflexivity. Qed.

Lemma elems_appends xs :
  Forall (fun x => fin_val x = true -> appends (serialize x) (enc x)) xs ->
  forallb fin_val xs = true ->
  Forall2 appends (List.map serialize xs) (List.map enc xs).
Proof.
  induction 1 as [| x xs Hx _ IH]; simpl; intros Hf; constructor.
  - apply Hx. destruct (fin_val x); [reflexivity | discriminate].
  - apply IH. destruct (fin_val x); [exact Hf | discriminate].
Qed.

Lemma fields_appends fs :
  Forall (fun kx => fin_val (snd kx) = true -> appends (serialize (snd kx)) (enc (snd kx))) fs ->
  forallb (fun '(_, x) => fin_val x) fs = true ->
  Forall2 (fun (f : string * M unit) (e : string * list tok) => fst f = fst e /\ appends (snd f) (snd e))
    (List.map (fun '(k, x) => (k, serialize x)) fs) (List.map (fun '(k, x) => (k, enc x)) fs).
Proof.
  induction 1 as [| [k x] fs Hx _ IH]; intros Hf; [constructor |]. simpl in Hx, Hf |- *. constructor.
  - split; [reflexivity |]. apply Hx. destruct (fin_val x); [reflexivity | discriminate].
  - apply IH. destruct (fin_val x); [exact Hf | discriminate].
Qed.

Lemma seq_appends xs (first : M SeqSerializer) (fin : SeqSerializer -> M unit) pre post :
  Forall2 appends (List.map serialize xs) (List.map enc xs) ->
  (forall sb, first sb = (Ok {| seq_first := true |}, append_toks sb pre)) ->
  (forall s, appends (fin s) post) ->
  appends (s <- first ;; s <- serialize_elements (List.map serialize xs) s ;; fin s)
          (pre ++ sep_by_comma (List.map enc xs) ++ post).
Proof.
  intros Hxs Hfirst Hfin sb. simpl. rewrite Hfirst.
  destruct (serialize_elements_appends _ _ Hxs {| seq_first := true |} (append_toks sb pre)) as [s' Hs'].
  rewrite Hs'. simpl. rewrite Hfin, !append_toks_app. reflexivity.
Qed.

Lemma struct_appends fs (first : M MapSerializer) (fin : MapSerializer -> M unit) pre post :
  Forall2 (fun (f : string * M unit) (e : string * list tok) => fst f = fst e /\ appends (snd f) (snd e))
    (List.map (fun '(k, x) => (k, serialize x)) fs) (List.map (fun '(k, x) => (k, enc x)) fs) ->
  (forall sb, first sb = (Ok {| map_first := true |}, append_toks sb pre)) ->
  (forall m, appends (fin m) post) ->
  appends (m <- first ;; m <- serialize_fields (List.map (fun '(k, x) => (k, serialize x)) fs) m ;; fin m)
          (pre ++ sep_by_comma (List.map member_text (List.map (fun '(k, x) => (k, enc x)) fs)) ++ post).
Proof.
  intros Hfs Hfirst Hfin sb. simpl. rewrite Hfirst.
  destruct (serialize_fields_appends _ _ Hfs {| map_first := true |} (append_toks sb pre)) as [m' Hm'].
  rewrite Hm'. simpl. rewrite Hfin, !append_toks_app. reflexivity.
Qed.

Lemma serialize_VTuple xs :
  serialize (VTuple xs) =
  (s <- serialize_tuple ;; s <- serialize_elements (List.map serialize xs) s ;; SerializeSeq_end s).
Proof. simpl. rewrite elems_eq. reflexivity. Qed.

Lemma serialize_VTupleVariant n xs :
  serialize (VTupleVariant n xs) =
  (s <- serialize_tuple_variant n ;; s <- serialize_elements (List.map serialize xs) s ;;
   SerializeTupleVariant_end s).
Proof. simpl. rewrite elems_eq. reflexivity. Qed.

Lemma serialize_VStructVariant n fs :
  serialize (VStructVariant n fs) =
  (m <- serialize_struct_variant n ;;
   m <- serialize_fields (List.map (fun '(k, x) => (k, serialize x)) fs) m ;;
   SerializeStructVariant_end m).
Proof. simpl. rewrite fields_eq. reflexivity. Qed.

(** Unfolds the builder primitives of [M]. *)
Ltac run_M :=
  cbv [SerializeTupleVariant_end SerializeStructVariant_end SerializeSeq_end SerializeStruct_end
       serialize_tuple_variant serialize_struct_variant serialize_seq serialize_tuple
       serialize_map serialize_struct start_array end_array start_object end_object
       append_string append_colon append_comma emit bind ret Monad_M append_toks]; simpl.

Lemma appends_eq m a b : a = b -> appends m a -> appends m b.
Proof. intros <-. exact id. Qed.

Lemma serialize_enc v : fin_val v = true -> appends (serialize v) (enc v).
Proof.
  induction v using val_ind_nested; simpl fin_val; intros Hf.
  all: try (intros sb; reflexivity).
  - intros sb. simpl. unfold serialize_f64. rewrite Hf. reflexivity.
  - rewrite serialize_VSeq. unfold enc; fold enc. unfold seq_text.
    apply seq_appends; [apply elems_appends; assumption | reflexivity | intros s sb; reflexivity].
  - rewrite serialize_VTuple. unfold enc; fold enc. unfold seq_text.
    apply seq_appends; [apply elems_appends; assumption | reflexivity | intros s sb; reflexivity].
  - exact (IHv Hf).
  - rewrite serialize_VStruct. unfold enc; fold enc. rewrite obj_text_eq.
    apply struct_appends; [apply fields_appends; assumption | reflexivity | intros m sb; reflexivity].
  - intros sb. pose proof (IHv Hf) as E. unfold appends in E. simpl. unfold serialize_newtype_variant. simpl. rewrite E, !append_toks_app.
    unfold end_object, emit. rewrite append_toks_app. do 2 f_equal.
    unfold obj_text, sep_by_comma, comma_each. simpl. rewrite ?app_nil_r, <- ?app_assoc. reflexivity.
  - rewrite serialize_VTupleVariant.
    eapply appends_eq;
      [| apply (seq_appends xs _ _ [TStartObject; TString n; TColon; TStartArray] [TEndArray; TEndObject]);
         [apply elems_appends; assumption | intros [c b]; run_M; rewrite <- ?app_assoc; reflexivity
         | intros s [c b]; run_M; rewrite <- ?app_assoc; reflexivity]].
    simpl. unfold obj_text, seq_text. simpl. rewrite <- !app_assoc. reflexivity.
  - rewrite serialize_VStructVariant.
    eapply appends_eq;
      [| apply (struct_appends fs _ _ [TStartObject; TString n; TColon; TStartObject] [TEndObject; TEndObject]);
         [apply fields_appends; assumption | intros [c b]; run_M; rewrite <- ?app_assoc; reflexivity
         | intros m [c b]; run_M; rewrite <- ?app_assoc; reflexivity]].
    simpl. rewrite (obj_text_eq (List.map _ fs)). unfold obj_text. simpl. rewrite <- !app_assoc. reflexivity.
Qed.

Lemma parse_value_array f r :
  (forall r', r <> TEndArray :: r') ->
  parse_value (S f) (TStartArray :: r) =
  match parse_value f r with
  | Some (e, r1) =>
      match parse_elements f r1 with
      | Some (es, r2) => Some (EArray (e :: es), r2)
      | None => None
      end
  | None => None
  end.
Proof.
  intros H. destruct r as [| t r]; [reflexivity |].
  destruct t; try reflexivity. exfalso. exact (H r eq_refl).
Qed.

Lemma parses_as_not_end e el rest :
  parses_as e el -> forall r', e ++ rest <> TEndArray :: r'.
Proof.
  intros H r' E. specialize (H (List.length e) rest (le_n _)). rewrite E in H.
  destruct (List.length e); discriminate.
Qed.

Lemma comma_each_cons e es : comma_each (e :: es) = TComma :: e ++ comma_each es.
Proof. reflexivity. Qed.

Lemma parse_elements_comma es els :
  Forall2 parses_as es els ->
  forall f rest, (List.length (comma_each es ++ [TEndArray]) <= f)%nat ->
  parse_elements f (comma_each es ++ TEndArray :: rest) = Some (els, rest).
Proof.
  induction 1 as [| e el es els He _ IH]; intros f rest Hf.
  - destruct f as [| f]; [simpl in Hf; lia | reflexivity].
  - rewrite comma_each_cons in *. simpl in Hf. rewrite !length_app in Hf.
    destruct f as [| f]; [lia |]. simpl. rewrite <- app_assoc.
    rewrite He by lia. rewrite IH by (rewrite length_app; simpl in *; lia). reflexivity.
Qed.

Lemma parse_seq_text es els :
  Forall2 parses_as es els -> parses_as (seq_text es) (EArray els).
Proof.
  intros H f rest Hf. unfold seq_text in *. destruct H as [| e el es els He Hes].
  - destruct f as [| f]; [simpl in Hf; lia | reflexivity].
  - simpl in Hf |- *. destruct f as [| f]; [lia |].
    rewrite !length_app in Hf.
    rewrite <- !app_assoc. cbn [app].
    rewrite parse_value_array by (apply (parses_as_not_end _ _ _ He)).
    rewrite He by (simpl; lia).
    rewrite (parse_elements_comma es els Hes) by (rewrite length_app; simpl in *; lia).
    reflexivity.
Qed.

Lemma parse_members_comma fs kvs :
  Forall2 member_parses fs kvs ->
  forall f rest, (List.length (comma_each (List.map member_text fs) ++ [TEndObject]) <= f)%nat ->
  parse_members f (comma_each (List.map member_text fs) ++ TEndObject :: rest) = Some (kvs, rest).
Proof.
  induction 1 as [| [k e] [k' el] fs kvs [Hk He] _ IH]; intros f rest Hf.
  - destruct f as [| f]; [simpl in Hf; lia | reflexivity].
  - simpl in Hk, He. subst k'. cbn [List.map member_text] in *. rewrite comma_each_cons in *.
    simpl in Hf. rewrite !length_app in Hf.
    destruct f as [| f]; [lia |]. cbn [app]. rewrite <- app_assoc. simpl parse_members.
    rewrite He by lia. rewrite IH by (rewrite length_app; simpl in *; lia). reflexivity.
Qed.

Lemma parse_obj_text fs kvs :
  Forall2 member_parses fs kvs -> parses_as (obj_text fs) (EObject kvs).
Proof.
  intros H f rest Hf. rewrite obj_text_eq in *. destruct H as [| [k e] [k' el] fs kvs [Hk He] Hfs].
  - destruct f as [| f]; [simpl in Hf; lia | reflexivity].
  - simpl in Hk, He. subst k'. cbn [List.map member_text sep_by_comma] in *.
    simpl in Hf. rewrite !length_app in Hf.
    destruct f as [| f]; [lia |].
    rewrite <- !app_assoc. cbn [app]. simpl parse_value.
    rewrite He by (simpl in *; lia).
    rewrite (parse_members_comma fs kvs Hfs) by (rewrite length_app; simpl in *; lia).
    reflexivity.
Qed.

Lemma Forall_parses xs :
  Forall (fun x => parses_as (enc x) (to_elem x)) xs ->
  Forall2 parses_as (List.map enc xs) (List.map to_elem xs).
Proof. induction 1; simpl; constructor; assumption. Qed.

Lemma Forall_member_parses fs :
  Forall (fun kx => parses_as (enc (snd kx)) (to_elem (snd kx))) fs ->
  Forall2 member_parses (List.map (fun '(k, x) => (k, enc x)) fs)
    (List.map (fun '(k, x) => (k, to_elem x)) fs).
Proof. induction 1 as [| [k x] fs Hx _ IH]; simpl; constructor; [split; [reflexivity | exact Hx] | exact IH]. Qed.

Lemma parses_single t el : parse_value 1 [t] = Some (el, []) -> parses_as [t] el.
Proof.
  intros H f rest Hf. destruct f as [| f]; [simpl in Hf; lia |].
  destruct t; simpl in H |- *; try discriminate; injection H as <-; reflexivity.
Qed.

Lemma parse_enc v : parses_as (enc v) (to_elem v).
Proof.
  induction v using val_ind_nested; simpl enc; simpl to_elem.
  all: try (apply parses_single; reflexivity).
  - apply parse_seq_text, Forall_parses; assumption.
  - apply parse_seq_text, Forall_parses; assumption.
  - assumption.
  - apply parse_obj_text, Forall_member_parses; assumption.
  - apply parse_obj_text. repeat constructor. assumption.
  - apply parse_obj_text. constructor; [| constructor]. split; [reflexivity |].
    apply parse_seq_text, Forall_parses; assumption.
  - apply parse_obj_text. constructor; [| constructor]. split; [reflexivity |].
    apply parse_obj_text, Forall_member_parses; assumption.
Qed.

Lemma parse_enc_doc v : parse (enc v) = Some (to_elem v).
Proof.
  unfold parse. pose proof (parse_enc v (List.length (enc v)) [] (le_n _)) as H.
  rewrite app_nil_r in H. rewrite H. reflexivity.
Qed.

Lemma des_eq ys :
  (fix go (ts : list ty) : list (Element -> result val) :=
     match ts with [] => [] | t :: r => deserialize t :: go r end) ys = List.map deserialize ys.
Proof. induction ys; simpl; congruence. Qed.

Lemma fields_de_eq ys :
  (fix go (fs : list (string * ty)) : list field_de :=
     match fs with
     | [] => []
     | (n, t) :: r =>
         {| fd_name := n; fd_missing := missing_value n t; fd_de := deserialize t |} :: go r
     end) ys = List.map mk_field ys.
Proof. induction ys as [| [n t] ys IH]; [reflexivity |]. simpl. rewrite IH. reflexivity. Qed.

Lemma variants_eq ys :
  (fix go (vs : list (string * vshape)) : list (string * (VariantAccess -> result val)) :=
     match vs with [] => [] | (n, s) :: r => (n, deserialize_variant n s) :: go r end) ys
  = List.map (fun '(n, s) => (n, deserialize_variant n s)) ys.
Proof. induction ys as [| [n s] ys IH]; simpl; congruence. Qed.

Lemma deserialize_TyTuple ts el :
  deserialize (TyTuple ts) el =
  (xs <- deserialize_seq (tuple_visit_seq (List.map deserialize ts)) el ;; ret (VTuple xs)).
Proof. simpl. rewrite des_eq. reflexivity. Qed.

Lemma deserialize_TyStruct fts el :
  deserialize (TyStruct fts) el =
  (xs <- deserialize_map (struct_visit_map (List.map mk_field fts)) el ;; ret (VStruct xs)).
Proof. simpl. rewrite fields_de_eq. reflexivity. Qed.

Lemma deserialize_TyEnum vs el :
  deserialize (TyEnum vs) el =
  deserialize_enum (enum_visit (List.map (fun '(n, s) => (n, deserialize_variant n s)) vs)) el.
Proof. simpl. rewrite variants_eq. reflexivity. Qed.

Lemma deserialize_variant_ShTuple n ts va :
  deserialize_variant n (ShTuple ts) va =
  (xs <- tuple_variant va (tuple_visit_seq (List.map deserialize ts)) ;; ret (VTupleVariant n xs)).
Proof. simpl. rewrite des_eq. reflexivity. Qed.

Lemma deserialize_variant_ShStruct n fts va :
  deserialize_variant n (ShStruct fts) va =
  (xs <- struct_variant va (struct_visit_map (List.map mk_field fts)) ;; ret (VStructVariant n xs)).
Proof. simpl. rewrite fields_de_eq. reflexivity. Qed.

Lemma field_index_app l1 k l2 :
  ~ In k l1 -> field_index (l1 ++ k :: l2) k = Some (List.length l1).
Proof.
  induction l1 as [| n l1 IH]; intros Hk; simpl.
  - rewrite String.eqb_refl. reflexivity.
  - destruct (String.eqb_spec n k) as [-> | Hne].
    + exfalso. apply Hk. left. reflexivity.
    + rewrite IH by (intros H; apply Hk; right; exact H). reflexivity.
Qed.

Lemma skipn_S_fold {A} n (l : list A) :
  match l with [] => [] | _ :: l' => skipn n l' end = skipn (S n) l.
Proof. reflexivity. Qed.

Lemma slot_update {A} (l1 : list A) a b l2 :
  firstn (List.length l1) (l1 ++ a :: l2) ++ b :: skipn (S (List.length l1)) (l1 ++ a :: l2)
  = l1 ++ b :: l2.
Proof.
  rewrite firstn_app, skipn_app, Nat.sub_diag, firstn_all, skipn_all2 by lia.
  replace (S (List.length l1) - List.length l1)%nat with 1%nat by lia.
  rewrite app_nil_r. reflexivity.
Qed.

Lemma struct_loop_ok F F2 : forall F1 ps1 ps2 pending,
  F = F1 ++ F2 ->
  NoDup (List.map fd_name F) ->
  Forall2 field_ok F1 ps1 ->
  Forall2 field_ok F2 ps2 ->
  struct_loop F (List.map (fun kx => Some (snd kx)) ps1 ++ repeat None (List.length F2))
    (List.map to_member ps2) pending
  = Ok (List.map (fun kx => Some (snd kx)) (ps1 ++ ps2)).
Proof.
  induction F2 as [| f F2 IH]; intros F1 ps1 ps2 pending HF Hnd H1 H2.
  - inversion H2; subst. simpl. rewrite !app_nil_r. reflexivity.
  - inversion H2 as [| f' [k x] F2' ps2' [Hk Hde] H2' ]; subst. simpl in Hk, Hde.
    pose proof (Forall2_length H1) as Hlen.
    simpl. unfold next_key_seed. simpl.
    rewrite map_app in Hnd. rewrite (map_app fd_name F1 (f :: F2)). simpl in Hnd |- *. rewrite <- Hk.
    rewrite field_index_app
      by (intros Hin; apply NoDup_remove_2 in Hnd; apply Hnd; apply in_or_app; left; exact Hin).
    cbn [map_result]. rewrite length_map.
    rewrite nth_error_app2 by (rewrite length_map; lia).
    rewrite length_map, Hlen, Nat.sub_diag. simpl nth_error. rewrite <- Hlen.
    rewrite nth_error_app2 by lia. rewrite Nat.sub_diag. simpl nth_error.
    unfold next_value_seed. cbn [pending_value iter]. rewrite Hde. cbn [pending_value].
    replace (Datatypes.length F1) with (List.length (List.map (fun kx : string * val => Some (snd kx)) ps1))
      by (rewrite length_map; lia).
    rewrite skipn_S_fold, slot_update.
    specialize (IH (F1 ++ [f]) (ps1 ++ [(fd_name f, x)]) ps2' None).
    rewrite <- !app_assoc in IH. simpl in IH.
    rewrite (map_app (fun kx : string * val => Some (snd kx)) ps1 [(fd_name f, x)]) in IH.
    rewrite <- app_assoc in IH. simpl in IH.
    rewrite IH; [reflexivity | reflexivity | rewrite map_app; exact Hnd | | exact H2'].
    apply Forall2_app; [exact H1 | constructor; [split; [reflexivity | exact Hde] | constructor]].
Qed.

Lemma struct_finish_ok F ps :
  Forall2 field_ok F ps ->
  struct_finish F (List.map (fun kx => Some (snd kx)) ps) = Ok ps.
Proof.
  induction 1 as [| f [k x] F ps [Hk _] _ IH]; [reflexivity |].
  simpl in Hk |- *. rewrite IH. subst k. reflexivity.
Qed.

Lemma struct_visit_map_ok F ps :
  NoDup (List.map fd_name F) -> Forall2 field_ok F ps ->
  struct_visit_map F (MapAccessor_new (List.map to_member ps)) = Ok ps.
Proof.
  intros Hnd H. unfold struct_visit_map. simpl.
  pose proof (struct_loop_ok F F [] [] ps None eq_refl Hnd (Forall2_nil _) H) as E.
  simpl in E. rewrite E. simpl. apply struct_finish_ok. exact H.
Qed.

Lemma find_map_variants (vs : list (string * vshape)) n :
  find (fun nv => String.eqb (fst nv) n) (List.map (fun '(n, s) => (n, deserialize_variant n s)) vs)
  = option_map (fun '(n, s) => (n, deserialize_variant n s)) (find (fun ns => String.eqb (fst ns) n) vs).
Proof.
  induction vs as [| [m s] vs IH]; [reflexivity |]. simpl.
  destruct (String.eqb m n); [reflexivity | exact IH].
Qed.

Lemma variant_shape_found n vs s :
  variant_shape n vs = Some s ->
  find (fun ns => String.eqb (fst ns) n) vs = Some (n, s) /\ In (n, s) vs.
Proof.
  unfold variant_shape. destruct (find _ vs) as [[m s'] |] eqn:E; simpl; [| discriminate].
  intros [= ->]. pose proof (find_some _ _ E) as [Hin Heq]. simpl in Heq.
  apply String.eqb_eq in Heq. subst m. split; [reflexivity | exact Hin].
Qed.

Lemma vec_visit_ok t xs :
  Forall de_ok xs -> Forall (fun x => has_ty x t) xs -> wf_ty t ->
  vec_visit_seq (deserialize t) (List.map to_elem xs) = Ok xs.
Proof.
  intros IH Hty Hwf. induction IH as [| x xs Hx _ IHxs]; [reflexivity |].
  inversion Hty as [| ? ? Hxt Hxst]; subst.
  simpl. rewrite (Hx t Hxt Hwf). simpl. rewrite (IHxs Hxst). reflexivity.
Qed.

Lemma tuple_visit_ok xs : forall ts,
  Forall de_ok xs -> Forall2 has_ty xs ts -> Forall wf_ty ts ->
  tuple_visit_seq (List.map deserialize ts) (List.map to_elem xs) = Ok xs.
Proof.
  induction xs as [| x xs IHxs]; intros ts IH Hty Hwf; inversion Hty as [| ? t ? ts' Hxt Hxst]; subst.
  - reflexivity.
  - inversion IH as [| ? ? Hx IHr]; subst. inversion Hwf as [| ? ? Hwt Hwts]; subst.
    simpl. rewrite (Hx t Hxt Hwt). simpl. rewrite (IHxs ts' IHr Hxst Hwts). reflexivity.
Qed.

Lemma struct_fields_ok fs : forall fts,
  Forall (fun kx => de_ok (snd kx)) fs ->
  Forall2 (fun kx kt => fst kx = fst kt /\ has_ty (snd kx) (snd kt)) fs fts ->
  Forall (fun kt => wf_ty (snd kt)) fts ->
  Forall2 field_ok (List.map mk_field fts) fs.
Proof.
  induction fs as [| [k x] fs IHfs]; intros fts IH Hty Hwf; inversion Hty as [| ? [k' t] ? fts' [Hk Hxt] Hrest]; subst.
  - constructor.
  - inversion IH as [| ? ? Hx IHr]; subst. inversion Hwf as [| ? ? Hwt Hwts]; subst.
    simpl in *. subst k'. constructor; [| exact (IHfs fts' IHr Hrest Hwts)].
    split; [reflexivity |]. exact (Hx t Hxt Hwt).
Qed.

Lemma struct_value_ok fs fts :
  Forall (fun kx => de_ok (snd kx)) fs ->
  Forall2 (fun kx kt => fst kx = fst kt /\ has_ty (snd kx) (snd kt)) fs fts ->
  NoDup (List.map fst fts) -> Forall (fun kt => wf_ty (snd kt)) fts ->
  struct_visit_map (List.map mk_field fts)
    (MapAccessor_new (List.map (fun '(k, x) => (k, to_elem x)) fs)) = Ok fs.
Proof.
  intros IH Hty Hnd Hwf.
  replace (List.map (fun '(k, x) => (k, to_elem x)) fs) with (List.map to_member fs)
    by (apply map_ext; intros [k x]; reflexivity).
  apply struct_visit_map_ok.
  - rewrite map_map. exact Hnd.
  - exact (struct_fields_ok fs fts IH Hty Hwf).
Qed.

Lemma to_elem_not_null x t :
  has_ty x t -> nullable t = false -> is_null (to_elem x) = false.
Proof. intros H Hn. inversion H; subst; simpl in *; congruence. Qed.

Lemma deserialize_TyVec t el :
  deserialize (TyVec t) el = (xs <- deserialize_seq (vec_visit_seq (deserialize t)) el ;; ret (VSeq xs)).
Proof. reflexivity. Qed.

Lemma deserialize_to_elem v : de_ok v.
Proof.
  induction v using val_ind_nested; intros ty Hty Hwf; inversion Hty; subst; simpl to_elem.
  all: try reflexivity.
  - (* VSeq *)
    inversion Hwf; subst. rewrite deserialize_TyVec. unfold deserialize_seq. cbn [bind Monad_result get_array].
    rewrite vec_visit_ok by assumption. reflexivity.
  - (* VTuple *)
    inversion Hwf; subst. rewrite deserialize_TyTuple. unfold deserialize_seq. cbn [bind Monad_result get_array].
    rewrite tuple_visit_ok by assumption. reflexivity.
  - (* VSome *)
    inversion Hwf; subst. simpl. unfold deserialize_option.
    rewrite (to_elem_not_null v t) by assumption. rewrite (IHv t) by assumption. reflexivity.
  - (* VStruct *)
    inversion Hwf; subst. rewrite deserialize_TyStruct. unfold deserialize_map. cbn [bind Monad_result get_object].
    rewrite struct_value_ok by assumption. reflexivity.
  - (* VUnitVariant *)
    rewrite deserialize_TyEnum. unfold deserialize_enum, enum_visit, variant_seed.
    cbn [get_type get_string get_object hd_error bind Monad_result ed_variant ed_value].
    rewrite find_map_variants. match goal with H : variant_shape _ _ = Some _ |- _ => destruct (variant_shape_found _ _ _ H) as [-> _] end. reflexivity.
  - (* VNewtypeVariant *)
    rewrite deserialize_TyEnum. unfold deserialize_enum, enum_visit, variant_seed.
    cbn [get_type get_string get_object hd_error bind Monad_result ed_variant ed_value].
    rewrite find_map_variants. match goal with H : variant_shape _ _ = Some _ |- _ => destruct (variant_shape_found _ _ _ H) as [-> Hin] end. simpl.
    inversion Hwf as [| | | | | | | | | | vs' Hvs]; subst.
    pose proof (proj1 (Forall_forall _ _) Hvs _ Hin) as Hsh. simpl in Hsh. inversion Hsh; subst.
    rewrite (IHv t) by assumption. reflexivity.
  - (* VTupleVariant *)
    rewrite deserialize_TyEnum. unfold deserialize_enum, enum_visit, variant_seed.
    cbn [get_type get_string get_object hd_error bind Monad_result ed_variant ed_value].
    rewrite find_map_variants. match goal with H : variant_shape _ _ = Some _ |- _ => destruct (variant_shape_found _ _ _ H) as [-> Hin] end.
    cbn [option_map bind ret Monad_result].
    inversion Hwf as [| | | | | | | | | | vs' Hvs]; subst.
    pose proof (proj1 (Forall_forall _ _) Hvs _ Hin) as Hsh. simpl in Hsh. inversion Hsh; subst.
    rewrite deserialize_variant_ShTuple. unfold tuple_variant, deserialize_seq. cbn [bind Monad_result get_array].
    rewrite tuple_visit_ok by assumption. reflexivity.
  - (* VStructVariant *)
    rewrite deserialize_TyEnum. unfold deserialize_enum, enum_visit, variant_seed.
    cbn [get_type get_string get_object hd_error bind Monad_result ed_variant ed_value].
    rewrite find_map_variants. match goal with H : variant_shape _ _ = Some _ |- _ => destruct (variant_shape_found _ _ _ H) as [-> Hin] end.
    cbn [option_map bind ret Monad_result].
    inversion Hwf as [| | | | | | | | | | vs' Hvs]; subst.
    pose proof (proj1 (Forall_forall _ _) Hvs _ Hin) as Hsh. simpl in Hsh. inversion Hsh; subst.
    rewrite deserialize_variant_ShStruct. unfold struct_variant, deserialize_map. cbn [bind Monad_result get_object].
    rewrite struct_value_ok by assumption. reflexivity.
Qed.

Lemma framed_ret {A} (a : A) : framed (ret a).
Proof. exists (Ok a), []. intros sb. simpl. rewrite append_toks_nil. reflexivity. Qed.

Lemma framed_emit t : framed (emit t).
Proof. exists (Ok tt), [t]. reflexivity. Qed.

Lemma framed_raise {A} e : framed (@raise A e).
Proof. exists (Err e), []. intros sb. unfold raise. rewrite append_toks_nil. reflexivity. Qed.

Lemma framed_bind {A B} (c : M A) (k : A -> M B) :
  framed c -> (forall a, framed (k a)) -> framed (bind c k).
Proof.
  intros [r [ts Hc]] Hk. destruct r as [a | e].
  - destruct (Hk a) as [r' [ts' Hk']]. exists r', (ts ++ ts'). intros sb. simpl.
    rewrite Hc, Hk', append_toks_app. reflexivity.
  - exists (Err e), ts. intros sb. simpl. rewrite Hc. reflexivity.
Qed.

(** Splits a monadic term into [framed] pieces. *)
Ltac frame_tac :=
  cbv [serialize_bool serialize_i64 serialize_u64 serialize_f64 serialize_str serialize_unit
       serialize_none serialize_some serialize_unit_variant serialize_newtype_variant
       serialize_seq serialize_tuple serialize_tuple_variant serialize_map serialize_struct
       serialize_struct_variant SerializeSeq_serialize_element SerializeSeq_end
       SerializeTupleVariant_end SerializeStruct_serialize_field SerializeStruct_end
       SerializeStructVariant_end append_bool append_i64 append_u64 append_f64 append_null
       append_string start_object end_object start_array end_array append_comma append_colon];
  repeat first
    [ assumption
    | match goal with H : forall _, framed _ |- _ => apply H end
    | apply framed_emit
    | apply framed_ret
    | apply framed_raise
    | apply framed_bind; [| intros ]
    | match goal with |- framed (if ?b then _ else _) => destruct b end ].

Lemma framed_elements ms : Forall framed ms -> forall s, framed (serialize_elements ms s).
Proof. induction 1 as [| m ms Hm _ IH]; intros s; simpl; frame_tac. Qed.

Lemma framed_fields (fs : list (string * M unit)) :
  Forall (fun f => framed (snd f)) fs -> forall m, framed (serialize_fields fs m).
Proof. induction 1 as [| [k f] fs Hf _ IH]; intros m; simpl in *; frame_tac. Qed.

Lemma Forall_framed_map xs : Forall (fun x => framed (serialize x)) xs -> Forall framed (List.map serialize xs).
Proof. induction 1; simpl; constructor; assumption. Qed.

Lemma Forall_framed_fields fs :
  Forall (fun kx => framed (serialize (snd kx))) fs ->
  Forall (fun f : string * M unit => framed (snd f)) (List.map (fun '(k, x) => (k, serialize x)) fs).
Proof. induction 1 as [| [k x] fs Hx _ IH]; simpl; constructor; assumption. Qed.

Lemma serialize_framed v : framed (serialize v).
Proof.
  induction v using val_ind_nested.
  all: try rewrite serialize_VSeq; try rewrite serialize_VTuple; try rewrite serialize_VStruct;
    try rewrite serialize_VTupleVariant; try rewrite serialize_VStructVariant.
  all: try (apply Forall_framed_map in H); try (apply Forall_framed_fields in H).
  all: simpl serialize; frame_tac.
  all: first [apply framed_elements | apply framed_fields]; assumption.
Qed.

Lemma seq_appends_gen ms es (first : M SeqSerializer) (fin : SeqSerializer -> M unit) pre post :
  Forall2 appends ms es ->
  (forall sb, first sb = (Ok {| seq_first := true |}, append_toks sb pre)) ->
  (forall s, appends (fin s) post) ->
  appends (s <- first ;; s <- serialize_elements ms s ;; fin s) (pre ++ sep_by_comma es ++ post).
Proof.
  intros Hxs Hfirst Hfin sb. simpl. rewrite Hfirst.
  destruct (serialize_elements_appends _ _ Hxs {| seq_first := true |} (append_toks sb pre)) as [s' Hs'].
  rewrite Hs'. simpl. rewrite Hfin, !append_toks_app. reflexivity.
Qed.

Lemma Forall2_appends_map xs encs :
  Forall2 (fun x e => forall sb, serialize x sb = (Ok tt, append_toks sb e)) xs encs ->
  Forall2 appends (List.map serialize xs) encs.
Proof. induction 1; constructor; assumption. Qed.

(* ================================================================= *)
(** * Properties *)

(** C1 (serialize_f64 / serialize_f32): the [f64] entry point rejects a
    non-finite value before writing anything and appends a finite one;
    the [f32] entry point has no such check: NaN and the infinities are
    widened and appended, and serialization succeeds. *)
Theorem serialize_float_non_finite :
  (forall v sb,
      serialize_f64 v sb =
      if is_finite v then (Ok tt, append_toks sb [TF64 v])
      else (Err (Serde ("cannot serialize non-finite float: " ++ Json.display_non_finite v)), sb)) /\
  (forall sb, serialize_f32 S754_nan sb = (Ok tt, append_toks sb [TF64 S754_nan])) /\
  (forall s sb,
      serialize_f32 (S754_infinity s) sb = (Ok tt, append_toks sb [TF64 (S754_infinity s)])).
Proof.
  split; [| split].
  - intros v sb. unfold serialize_f64. destruct (is_finite v); reflexivity.
  - intros sb. reflexivity.
  - intros s sb. reflexivity.
Qed.

(** C2 (deserialize_enum): an object node with no key fails with
    "expected an object with a single key for enum"; an object node with
    at least one key hands its first key and value to the visitor, and the
    remaining keys are never looked at: two keys are accepted. *)
Theorem deserialize_enum_object_keys :
  (forall A (visit : EnumAccess -> result A),
      deserialize_enum visit (EObject []) =
      Err (Serde "expected an object with a single key for enum")) /\
  (forall A (visit : EnumAccess -> result A) k v rest,
      deserialize_enum visit (EObject ((k, v) :: rest)) =
      visit (EnumObj {| ed_variant := k; ed_value := v |})) /\
  deserialize_enum (fun ea => Ok ea)
    (EObject [("A"%string, EInt64 1); ("B"%string, EInt64 2)]) =
  Ok (EnumObj {| ed_variant := "A"; ed_value := EInt64 1 |}).
Proof.
  split; [| split]; intros; reflexivity.
Qed.

(* ================================================================= *)
(** ** The DOM to [Value] conversion *)

Module JsonFacts.
Import Json.

Lemma ascii_compare_lt_trans a b c :
  Ascii.compare a b = Lt -> Ascii.compare b c = Lt -> Ascii.compare a c = Lt.
Proof. unfold Ascii.compare. rewrite !N.compare_lt_iff. lia. Qed.

Lemma ascii_compare_refl a : Ascii.compare a a = Eq.
Proof. unfold Ascii.compare. apply N.compare_refl. Qed.

Lemma string_compare_lt_trans s1 s2 s3 :
  String.compare s1 s2 = Lt -> String.compare s2 s3 = Lt -> String.compare s1 s3 = Lt.
Proof.
  revert s2 s3. induction s1 as [| a s1 IH]; intros [| b s2] [| c s3]; simpl; try congruence.
  destruct (Ascii.compare a b) eqn:Eab; destruct (Ascii.compare b c) eqn:Ebc;
    intros H1 H2; try discriminate.
  - apply Ascii.compare_eq_iff in Eab, Ebc. subst. rewrite ascii_compare_refl. exact (IH _ _ H1 H2).
  - apply Ascii.compare_eq_iff in Eab. subst. rewrite Ebc. reflexivity.
  - apply Ascii.compare_eq_iff in Ebc. subst. rewrite Eab. reflexivity.
  - rewrite (ascii_compare_lt_trans _ _ _ Eab Ebc). reflexivity.
Qed.

Lemma map_insert_HdRel a k v m :
  HdRel key_lt a m -> key_lt a (k, v) -> HdRel key_lt a (map_insert k v m).
Proof.
  intros H Hak. destruct m as [| [k' v'] m]; simpl; [constructor; exact Hak |].
  inversion H; subst. destruct (String.compare k k'); constructor; assumption.
Qed.

Lemma map_insert_sorted k v m : Sorted key_lt m -> Sorted key_lt (map_insert k v m).
Proof.
  induction m as [| [k' v'] m IH]; intros Hs; simpl.
  - repeat constructor.
  - inversion Hs as [| ? ? Hm Hhd]; subst.
    destruct (String.compare k k') eqn:E.
    + apply String.compare_eq_iff in E. subst k'.
      constructor; [exact Hm |]. destruct m as [| [k2 v2] m]; constructor.
      inversion Hhd; subst. assumption.
    + constructor; [exact Hs | constructor; exact E].
    + constructor; [exact (IH Hm) |]. apply map_insert_HdRel; [exact Hhd |].
      unfold key_lt. simpl. rewrite String.compare_antisym, E. reflexivity.
Qed.

Lemma map_insert_keys k v m k0 :
  In k0 (List.map fst (map_insert k v m)) <-> k = k0 \/ In k0 (List.map fst m).
Proof.
  induction m as [| [k' v'] m IH]; simpl; [tauto |].
  destruct (String.compare k k') eqn:E; simpl.
  - apply String.compare_eq_iff in E. subst k'. tauto.
  - tauto.
  - rewrite IH. tauto.
Qed.

Lemma map_insert_in k v m k0 v0 :
  In (k0, v0) (map_insert k v m) -> (k, v) = (k0, v0) \/ In (k0, v0) m.
Proof.
  induction m as [| [k' v'] m IH]; simpl; [tauto |].
  destruct (String.compare k k') eqn:E; simpl.
  - tauto.
  - tauto.
  - intros [H | H]; [tauto |]. destruct (IH H); tauto.
Qed.

Lemma element_to_value_inner_array xs d :
  element_to_value_inner (EArray xs) d =
  if Nat.ltb MAX_NESTING_DEPTH d then Err depth_error
  else (vec <- arr_loop (S d) xs ;; ret (VArray vec)).
Proof.
  simpl. destruct (Nat.ltb MAX_NESTING_DEPTH d); [reflexivity |].
  match goal with |- context [?F xs] => replace (F xs) with (arr_loop (S d) xs) end; [reflexivity |].
  induction xs as [| x xs IH]; simpl; [reflexivity |]. rewrite IH. reflexivity.
Qed.

Lemma element_to_value_inner_object kvs d :
  element_to_value_inner (EObject kvs) d =
  if Nat.ltb MAX_NESTING_DEPTH d then Err depth_error
  else (map <- obj_loop (S d) kvs [] ;; ret (VObject map)).
Proof.
  simpl. destruct (Nat.ltb MAX_NESTING_DEPTH d); [reflexivity |].
  match goal with |- context [?F kvs []] => replace (F kvs []) with (obj_loop (S d) kvs []) end;
    [reflexivity |].
  generalize (@nil (string * Value)).
  induction kvs as [| [k x] kvs IH]; intros m; simpl; [reflexivity |].
  destruct (element_to_value_inner x (S d)); [apply IH | reflexivity].
Qed.

Lemma arr_loop_spec d xs : forall vs,
  arr_loop d xs = Ok vs -> Forall2 (fun x v => element_to_value_inner x d = Ok v) xs vs.
Proof.
  induction xs as [| x xs IH]; intros vs H; simpl in H.
  - injection H as <-. constructor.
  - destruct (element_to_value_inner x d) as [v |] eqn:Ex; [| discriminate].
    destruct (arr_loop d xs) as [vs' |]; [| discriminate].
    injection H as <-. constructor; [exact Ex | apply IH; reflexivity].
Qed.

Lemma obj_loop_spec d kvs : forall acc m,
  obj_loop d kvs acc = Ok m -> Sorted key_lt acc ->
  Sorted key_lt m /\
  (forall k, In k (List.map fst m) <-> In k (List.map fst acc) \/ In k (List.map fst kvs)) /\
  (forall k v, In (k, v) m ->
     In (k, v) acc \/ exists x, In (k, x) kvs /\ element_to_value_inner x d = Ok v).
Proof.
  induction kvs as [| [k x] kvs IH]; intros acc m H Hs; simpl in H.
  - injection H as <-. split; [exact Hs |]. split; [simpl; tauto | tauto].
  - destruct (element_to_value_inner x d) as [v |] eqn:Ex; [| discriminate].
    destruct (IH _ _ H (map_insert_sorted k v acc Hs)) as [Hm [Hkeys Hvals]].
    split; [exact Hm | split].
    + intros k0. rewrite Hkeys, map_insert_keys. simpl. tauto.
    + intros k0 v0 Hin. destruct (Hvals k0 v0 Hin) as [Hin' | [x0 [Hx0 Ex0]]].
      * destruct (map_insert_in _ _ _ _ _ Hin') as [E | Hacc]; [| left; exact Hacc].
        injection E as <- <-. right. exists x. split; [left; reflexivity | exact Ex].
      * right. exists x0. split; [right; exact Hx0 | exact Ex0].
Qed.

Lemma list_max_bound d l :
  (d + list_max l <= 128)%nat <-> (d <= 128)%nat /\ Forall (fun k => d + k <= 128)%nat l.
Proof.
  induction l as [| a l IH]; simpl.
  - split; [intros H; split; [lia | constructor] | intros [H _]; lia].
  - rewrite Forall_cons_iff. split.
    + intros H. assert (H1 : (d + list_max l <= 128)%nat) by lia.
      apply IH in H1 as [Hd Hl]. split; [exact Hd | split; [lia | exact Hl]].
    + intros [Hd [Ha Hl]]. assert (H1 : (d + list_max l <= 128)%nat) by (apply IH; auto). lia.
Qed.

Lemma arr_loop_outcome d xs :
  Forall converts xs -> forallb all_finite xs = true ->
  (arr_loop d xs = Err depth_error /\ Exists (fun x => 128 < d + max_depth x)%nat xs) \/
  (exists vs, arr_loop d xs = Ok vs /\ Forall (fun x => d + max_depth x <= 128)%nat xs).
Proof.
  induction 1 as [| x xs Hx _ IH]; simpl; intros Hf.
  - right. exists []. split; [reflexivity | constructor].
  - apply andb_true_iff in Hf as [Hfx Hfs].
    destruct (Hx d Hfx) as [[E Hlt] | [v [E Hle]]]; rewrite E.
    + left. split; [reflexivity | left; exact Hlt].
    + destruct (IH Hfs) as [[E' Hex] | [vs [E' Hall]]]; cbn; rewrite E'.
      * left. split; [reflexivity | right; exact Hex].
      * right. exists (v :: vs). split; [reflexivity | constructor; assumption].
Qed.

Lemma obj_loop_outcome d kvs :
  Forall (fun kx => converts (snd kx)) kvs -> forallb (fun '(_, x) => all_finite x) kvs = true ->
  forall acc,
  (obj_loop d kvs acc = Err depth_error /\ Exists (fun kx => 128 < d + max_depth (snd kx))%nat kvs) \/
  (exists m, obj_loop d kvs acc = Ok m /\ Forall (fun kx => d + max_depth (snd kx) <= 128)%nat kvs).
Proof.
  induction 1 as [| [k x] kvs Hx _ IH]; simpl; intros Hf acc.
  - right. exists acc. split; [reflexivity | constructor].
  - apply andb_true_iff in Hf as [Hfx Hfs].
    destruct (Hx d Hfx) as [[E Hlt] | [v [E Hle]]]; simpl in E; rewrite E.
    + left. split; [reflexivity | left; exact Hlt].
    + destruct (IH Hfs (map_insert k v acc)) as [[E' Hex] | [m [E' Hall]]]; cbn; rewrite E'.
      * left. split; [reflexivity | right; exact Hex].
      * right. exists m. split; [reflexivity | constructor; assumption].
Qed.

Lemma converts_all el : converts el.
Proof.
  induction el using elem_ind_nested; intros dp Hf; unfold depth_outcome.
  all: try (simpl; destruct (Nat.ltb MAX_NESTING_DEPTH dp) eqn:E;
            apply Nat.ltb_lt in E || apply Nat.ltb_ge in E; unfold MAX_NESTING_DEPTH in E;
            [left; split; [reflexivity | simpl; lia] | right; eexists; split; [reflexivity | simpl; lia]]).
  - (* EDouble *)
    simpl. simpl in Hf. unfold Number_from_f64. rewrite Hf.
    destruct (Nat.ltb MAX_NESTING_DEPTH dp) eqn:E;
      apply Nat.ltb_lt in E || apply Nat.ltb_ge in E; unfold MAX_NESTING_DEPTH in E;
      [left; split; [reflexivity | lia] | right; eexists; split; [reflexivity | lia]].
  - (* EArray *)
    rewrite element_to_value_inner_array. simpl max_depth. simpl in Hf.
    destruct (Nat.ltb MAX_NESTING_DEPTH dp) eqn:E;
      apply Nat.ltb_lt in E || apply Nat.ltb_ge in E; unfold MAX_NESTING_DEPTH in E.
    + left. split; [reflexivity | lia].
    + destruct (arr_loop_outcome (S dp) xs H Hf) as [[E' Hex] | [vs [E' Hall]]]; rewrite E'; cbn.
      * left. split; [reflexivity |].
        destruct (Nat.lt_ge_cases 128 (dp + list_max (List.map (fun x => S (max_depth x)) xs))) as [Hlt | Hge];
          [exact Hlt | exfalso].
        apply list_max_bound in Hge as [_ Hall]. apply Forall_map in Hall.
        apply Exists_exists in Hex as [x [Hin Hx]]. rewrite Forall_forall in Hall.
        specialize (Hall x Hin). simpl in Hall. lia.
      * right. eexists. split; [reflexivity |].
        apply list_max_bound. split; [lia |]. apply Forall_map.
        eapply Forall_impl; [| exact Hall]. simpl. intros x Hx. lia.
  - (* EObject *)
    rewrite element_to_value_inner_object. simpl max_depth. simpl in Hf.
    destruct (Nat.ltb MAX_NESTING_DEPTH dp) eqn:E;
      apply Nat.ltb_lt in E || apply Nat.ltb_ge in E; unfold MAX_NESTING_DEPTH in E.
    + left. split; [reflexivity | lia].
    + destruct (obj_loop_outcome (S dp) kvs H Hf []) as [[E' Hex] | [m [E' Hall]]]; rewrite E'; cbn.
      * left. split; [reflexivity |].
        destruct (Nat.lt_ge_cases 128 (dp + list_max (List.map (fun '(_, x) => S (max_depth x)) kvs)))
          as [Hlt | Hge]; [exact Hlt | exfalso].
        apply list_max_bound in Hge as [_ Hall]. apply Forall_map in Hall.
        apply Exists_exists in Hex as [[k x] [Hin Hx]]. rewrite Forall_forall in Hall.
        specialize (Hall (k, x) Hin). simpl in Hall, Hx. lia.
      * right. eexists. split; [reflexivity |].
        apply list_max_bound. split; [lia |]. apply Forall_map.
        eapply Forall_impl; [| exact Hall]. intros [k x] Hx. simpl in Hx. lia.
Qed.

(** C3 (element_to_value_inner): array elements are converted in order,
    each at the next depth; an object becomes a map whose keys are
    strictly increasing ([serde_json]'s default [Map] is a [BTreeMap]),
    holding the same keys as the node, each mapped to the conversion of
    one of its values.  Insertion order is not kept. *)
Theorem element_to_value_order :
  (forall xs d vs,
     element_to_value_inner (EArray xs) d = Ok (VArray vs) ->
     Forall2 (fun x v => element_to_value_inner x (S d) = Ok v) xs vs) /\
  (forall kvs d m,
     element_to_value_inner (EObject kvs) d = Ok (VObject m) ->
     Sorted key_lt m /\
     (forall k, In k (List.map fst m) <-> In k (List.map fst kvs)) /\
     (forall k v, In (k, v) m -> exists x, In (k, x) kvs /\ element_to_value_inner x (S d) = Ok v)).
Proof.
  split.
  - intros xs d vs H. rewrite element_to_value_inner_array in H.
    destruct (Nat.ltb MAX_NESTING_DEPTH d); [discriminate |].
    destruct (arr_loop (S d) xs) as [vs' |] eqn:E; [| discriminate].
    cbn in H. injection H as <-. apply arr_loop_spec. exact E.
  - intros kvs d m H. rewrite element_to_value_inner_object in H.
    destruct (Nat.ltb MAX_NESTING_DEPTH d); [discriminate |].
    destruct (obj_loop (S d) kvs []) as [m' |] eqn:E; [| discriminate].
    cbn in H. injection H as <-.
    destruct (obj_loop_spec _ _ _ _ E (Sorted_nil _)) as [Hs [Hk Hv]].
    split; [exact Hs | split].
    + intros k. rewrite Hk. simpl. tauto.
    + intros k v Hin. destruct (Hv k v Hin) as [[] | Hx]. exact Hx.
Qed.

Lemma element_to_value_order_witness :
  Forall2 (fun x v => element_to_value_inner x 1%nat = Ok v) [EString "x"; ENull] [VString "x"; VNull] /\
  Sorted key_lt [("a"%string, VNull); ("b"%string, VNull)].
Proof.
  split.
  - apply (proj1 element_to_value_order [EString "x"; ENull] 0%nat). reflexivity.
  - apply (proj1 (proj2 element_to_value_order [("b"%string, ENull); ("a"%string, ENull)] 0%nat
                   [("a"%string, VNull); ("b"%string, VNull)] eq_refl)).
Defined.

(** The object [{"b": null, "a": null}] converts to the map
    [{"a": null, "b": null}]. *)
Lemma element_to_value_reorders :
  element_to_value (EObject [("b"%string, ENull); ("a"%string, ENull)])
  = Ok (VObject [("a"%string, VNull); ("b"%string, VNull)]).
Proof. reflexivity. Qed.

(** C4 (element_to_value_inner, MAX_NESTING_DEPTH): on a tree whose
    doubles are finite, the conversion succeeds when its deepest node is at
    depth at most 128 (the root at depth 0) and fails with "nesting depth
    exceeds maximum of 128" otherwise; 200 nested arrays fail, 128 succeed. *)
Theorem element_to_value_depth_limit el :
  all_finite el = true ->
  ((max_depth el <= 128)%nat -> exists v, element_to_value el = Ok v) /\
  ((128 < max_depth el)%nat -> element_to_value el = Err depth_error).
Proof.
  intros Hf. unfold element_to_value.
  destruct (converts_all el 0%nat Hf) as [[E Hlt] | [v [E Hle]]].
  - split; intros H; [lia | exact E].
  - split; intros H; [exists v; exact E | lia].
Qed.

Lemma element_to_value_depth_limit_witness :
  all_finite (nested_arrays 200) = true /\
  element_to_value (nested_arrays 200) = Err depth_error /\
  all_finite (nested_arrays 128) = true /\
  (exists v, element_to_value (nested_arrays 128) = Ok v).
Proof.
  split; [reflexivity |]. split.
  - apply (proj2 (element_to_value_depth_limit (nested_arrays 200) eq_refl)).
    apply Nat.ltb_lt. reflexivity.
  - split; [reflexivity |].
    apply (proj1 (element_to_value_depth_limit (nested_arrays 128) eq_refl)).
    apply Nat.leb_le. reflexivity.
Defined.

End JsonFacts.

(** C5 (deserialize_i8 .. deserialize_u32): a narrowing request reads the
    node's 64-bit value with the accessor of the same signedness and
    returns it unchanged when it lies in the target range, and otherwise
    fails with "<i64|u64> value <v> out of range for <target>"; the
    spec's overflow examples all fail. *)
Theorem narrowing_is_checked :
  (forall el, deserialize_i8 el = checked (-128) 127 "i64" "i8" (get_int64 el)) /\
  (forall el, deserialize_i16 el = checked (-32768) 32767 "i64" "i16" (get_int64 el)) /\
  (forall el, deserialize_i32 el = checked (-2147483648) 2147483647 "i64" "i32" (get_int64 el)) /\
  (forall el, deserialize_u8 el = checked 0 255 "u64" "u8" (get_uint64 el)) /\
  (forall el, deserialize_u16 el = checked 0 65535 "u64" "u16" (get_uint64 el)) /\
  (forall el, deserialize_u32 el = checked 0 4294967295 "u64" "u32" (get_uint64 el)) /\
  deserialize_u8 (EUInt64 256) = Err (overflow "u64" 256 "u8") /\
  deserialize_i8 (EInt64 128) = Err (overflow "i64" 128 "i8") /\
  deserialize_i8 (EInt64 (-129)) = Err (overflow "i64" (-129) "i8") /\
  deserialize_u16 (EUInt64 65536) = Err (overflow "u64" 65536 "u16") /\
  deserialize_u32 (EUInt64 4294967296) = Err (overflow "u64" 4294967296 "u32") /\
  deserialize_i32 (EInt64 2147483648) = Err (overflow "i64" 2147483648 "i32").
Proof.
  repeat split; try reflexivity;
    intros el; destruct el; try reflexivity;
    cbn; unfold narrow, i8_try_from, i16_try_from, i32_try_from, u8_try_from,
      u16_try_from, u32_try_from, int_try_from, overflow;
    destruct (_ && _); reflexivity.
Qed.

(** C6 (to_string, from_element): a value of a well-formed type whose
    floats are finite serializes, parses back to a DOM node, and
    deserializes at its type to itself.  Well-formedness excludes
    [Option<()>] and [Option<Option<_>>], whose [Some] serializes as [null]. *)
Theorem roundtrip_well_typed t v :
  wf_ty t -> has_ty v t -> fin_val v = true ->
  exists out el, to_string v = Ok out /\ parse out = Some el /\ from_element t el = Ok v.
Proof.
  intros Ht Hv Hf. exists (enc v), (to_elem v). split; [| split].
  - unfold to_string. rewrite (serialize_enc v Hf StringBuilder_new). reflexivity.
  - apply parse_enc_doc.
  - exact (deserialize_to_elem v t Hv Ht).
Qed.

Lemma roundtrip_well_typed_witness :
  exists out el,
    to_string (VStruct [("a"%string, VSeq [VI64 1; VI64 2]); ("b"%string, VSome (VBool true));
                        ("c"%string, VTupleVariant "T" [VU64 3; VStr "x"])]) = Ok out /\
    parse out = Some el /\
    from_element (TyStruct [("a"%string, TyVec TyI64); ("b"%string, TyOption TyBool);
                            ("c"%string, TyEnum [("U"%string, ShUnit); ("T"%string, ShTuple [TyU64; TyString])])]) el
      = Ok (VStruct [("a"%string, VSeq [VI64 1; VI64 2]); ("b"%string, VSome (VBool true));
                     ("c"%string, VTupleVariant "T" [VU64 3; VStr "x"])]).
Proof.
  apply roundtrip_well_typed.
  - constructor.
    + simpl. constructor; [simpl; intros [H | [H | []]]; discriminate |].
      constructor; [simpl; intros [H | []]; discriminate |].
      constructor; [simpl; intros [] | constructor].
    + repeat constructor.
  - repeat constructor.
    apply ht_tuple_variant with (ts := [TyU64; TyString]); [reflexivity | repeat constructor].
  - reflexivity.
Defined.

(** [Some(None)] at [Option<Option<()>>] serializes to [null], which
    deserializes to [None]. *)
Lemma roundtrip_nested_option_fails :
  has_ty (VSome VNone) (TyOption (TyOption TyUnit)) /\
  fin_val (VSome VNone) = true /\
  to_string (VSome VNone) = Ok [TNull] /\
  parse [TNull] = Some ENull /\
  from_element (TyOption (TyOption TyUnit)) ENull = Ok VNone /\
  VNone <> VSome VNone.
Proof.
  split; [repeat constructor |].
  split; [reflexivity |]. split; [reflexivity |]. split; [reflexivity |].
  split; [reflexivity | discriminate].
Qed.

(** C7 (serialize_seq, SerializeSeq): if every element serializes to its
    own tokens, wherever it runs, a sequence (or tuple) serializes to an
    opening bracket, the element tokens with a comma before each one but
    the first, and a closing bracket; an element's own nested sequences
    do not change the outer commas. *)
Theorem serialize_seq_layout xs encs :
  Forall2 (fun x e => forall sb, serialize x sb = (Ok tt, append_toks sb e)) xs encs ->
  forall sb,
    serialize (VSeq xs) sb = (Ok tt, append_toks sb ([TStartArray] ++ sep_by_comma encs ++ [TEndArray])) /\
    serialize (VTuple xs) sb = (Ok tt, append_toks sb ([TStartArray] ++ sep_by_comma encs ++ [TEndArray])).
Proof.
  intros H sb. apply Forall2_appends_map in H. split.
  - rewrite serialize_VSeq. apply seq_appends_gen; [exact H | reflexivity | intros s sb'; reflexivity].
  - rewrite serialize_VTuple. apply seq_appends_gen; [exact H | reflexivity | intros s sb'; reflexivity].
Qed.

Lemma serialize_seq_layout_witness :
  serialize (VSeq [VSeq [VI64 1; VI64 2]; VSeq []; VI64 3]) StringBuilder_new =
  (Ok tt, append_toks StringBuilder_new
            [TStartArray; TStartArray; TI64 1; TComma; TI64 2; TEndArray; TComma;
             TStartArray; TEndArray; TComma; TI64 3; TEndArray]).
Proof.
  refine (eq_trans (proj1 (serialize_seq_layout [VSeq [VI64 1; VI64 2]; VSeq []; VI64 3] [enc (VSeq [VI64 1; VI64 2]); enc (VSeq []); enc (VI64 3)] _ _)) _).
  - repeat (apply Forall2_cons; [apply serialize_enc; reflexivity |]). apply Forall2_nil.
  - reflexivity.
Defined.

(** C8 (next_key_seed / next_value_seed): asking for a value while the
    pending slot is empty fails with "next_value_seed called before
    next_key_seed"; a key request on a non-exhausted iterator stores the
    paired node, the next value request deserializes exactly that node and
    empties the slot, so a further value request fails again. *)
Theorem map_accessor_two_phase :
  (forall V (seed : Element -> result V) it,
      fst (next_value_seed seed {| iter := it; pending_value := None |}) =
      Err (Serde "next_value_seed called before next_key_seed")) /\
  (forall K V (kseed : string -> result K) (vseed vseed' : Element -> result V) k v rest p,
      let '(rk, m1) := next_key_seed kseed {| iter := (k, v) :: rest; pending_value := p |} in
      let '(rv, m2) := next_value_seed vseed m1 in
      rk = map_result Some (kseed k) /\ rv = vseed v /\ iter m2 = rest /\
      fst (next_value_seed vseed' m2) =
      Err (Serde "next_value_seed called before next_key_seed")).
Proof.
  split.
  - intros. reflexivity.
  - intros. simpl. repeat split.
Qed.

(** C9 (to_string_with_capacity): the capacity only sizes the initial
    buffer; the result equals that of [to_string]. *)
Theorem to_string_with_capacity_eq v c : to_string_with_capacity v c = to_string v.
Proof.
  unfold to_string_with_capacity, to_string.
  destruct (serialize_framed v) as [r [ts E]]. rewrite !E.
  destruct r; reflexivity.
Qed.

(** C10 (deserialize_f32): a 32-bit float request reads the node with
    [get_double] and narrows it with an unchecked [as f32] cast: on a
    [Double] node it always succeeds, NaN stays NaN, and a double of
    magnitude at least [2^128] (beyond [f32::MAX]) becomes an infinity of
    the same sign. *)
Theorem deserialize_f32_unchecked_cast :
  (forall el, deserialize_f32 el = map_result f64_as_f32 (get_double el)) /\
  (forall d, deserialize_f32 (EDouble d) = Ok (f64_as_f32 d)) /\
  deserialize_f32 (EDouble S754_nan) = Ok S754_nan /\
  (forall s m e, 128 <= Z.log2 (Zpos m) + e ->
     deserialize_f32 (EDouble (S754_finite s m e)) = Ok (S754_infinity s)).
Proof.
  split; [| split; [| split]].
  - intros el. destruct el; reflexivity.
  - intros d. reflexivity.
  - reflexivity.
  - intros s m e H. cbn [deserialize_f32 bind Monad_result get_double ret].
    rewrite f64_as_f32_overflow by exact H. reflexivity.
Qed.

Lemma deserialize_f32_unchecked_cast_witness :
  128 <= Z.log2 (Zpos 1) + 200 /\
  deserialize_f32 (EDouble (S754_finite true 1 200)) = Ok (S754_infinity true).
Proof.
  split.
  - vm_compute. discriminate.
  - apply (proj2 (proj2 (proj2 deserialize_f32_unchecked_cast))). vm_compute. discriminate.
Defined.

(* ================================================================= *)
(** * Further properties of the code *)

(** ** Skipping values ([deserialize_ignored_any]) *)

Lemma in_list_max a l : In a l -> (a <= list_max l)%nat.
Proof.
  intros H. pose proof (proj1 (list_max_le l (list_max l)) (le_n _)) as F.
  rewrite Forall_forall in F. exact (F a H).
Qed.

Lemma ignore_seq_ok child xs :
  Forall (fun x => child x = Ok tt) xs -> ignore_seq child xs = Ok tt.
Proof. induction 1 as [| x xs Hx _ IH]; [reflexivity |]. simpl. rewrite Hx. exact IH. Qed.

Lemma ignore_map_ok child kvs pending :
  Forall (fun kx => child (snd kx) = Ok tt) kvs -> ignore_map child kvs pending = Ok tt.
Proof.
  intros H. revert pending. induction H as [| [k x] kvs Hx _ IH]; intros pending; [reflexivity |].
  simpl in Hx |- *. rewrite Hx. apply IH.
Qed.

(** X1 (deserialize_ignored_any): skipping a value through
    [IgnoredAny] never fails: the walk of [deserialize_ignored_any] over
    [deserialize_any] returns [Ok] on every node, so it agrees with the
    [ignored_any] the struct visitor uses. *)
Theorem ignored_any_walk_ok el fuel :
  (Json.max_depth el < fuel)%nat -> ignored_any_walk fuel el = ignored_any el.
Proof.
  revert el. induction fuel as [| f IH]; intros el Hf; [lia |].
  destruct el as [| | | | | | xs | kvs]; try reflexivity.
  - simpl. apply ignore_seq_ok. apply Forall_forall. intros x Hx. apply IH.
    pose proof (in_list_max (S (Json.max_depth x)) (List.map (fun x => S (Json.max_depth x)) xs)
                  (in_map (fun x => S (Json.max_depth x)) _ _ Hx)).
    simpl in Hf. lia.
  - simpl. apply ignore_map_ok. apply Forall_forall. intros [k x] Hx. apply IH.
    pose proof (in_list_max (S (Json.max_depth x)) (List.map (fun '(_, x) => S (Json.max_depth x)) kvs)
                  (in_map (fun '(_, x) => S (Json.max_depth x)) _ _ Hx)).
    simpl in Hf, H |- *. lia.
Qed.

Lemma ignored_any_walk_ok_witness :
  (Json.max_depth (EObject [("a"%string, EArray [ENull; EBool true])]) < 3)%nat /\
  ignored_any_walk 3 (EObject [("a"%string, EArray [ENull; EBool true])]) = Ok tt.
Proof.
  split; [simpl; lia |].
  apply (ignored_any_walk_ok (EObject [("a"%string, EArray [ENull; EBool true])]) 3). simpl; lia.
Defined.

(** ** Derived structs ([deserialize_struct], [MapAccessor]) *)



Lemma deserialize_struct_object fts kvs :
  deserialize (TyStruct fts) (EObject kvs) =
  (slots <- struct_loop (List.map mk_field fts) (repeat None (List.length (List.map mk_field fts))) kvs None ;;
   xs <- struct_finish (List.map mk_field fts) slots ;; ret (VStruct xs)).
Proof.
  rewrite deserialize_TyStruct. cbn [deserialize_map get_object bind Monad_result].
  unfold struct_visit_map, MapAccessor_new. cbn [iter pending_value].
  destruct (struct_loop _ _ _ _); reflexivity.
Qed.



Lemma finish_all_missing_ok fts :
  Forall (fun nt => is_option (snd nt)) fts ->
  struct_finish (List.map mk_field fts) (repeat None (List.length (List.map mk_field fts)))
  = Ok (List.map (fun nt => (fst nt, VNone)) fts).
Proof.
  induction 1 as [| [n t] fts [t' Ht] _ IH]; [reflexivity |].
  simpl in Ht |- *. subst t. simpl in IH |- *. rewrite IH. reflexivity.
Qed.

Lemma finish_first_missing_err pre n t post :
  Forall (fun nt => is_option (snd nt)) pre -> ~ is_option t ->
  struct_finish (List.map mk_field (pre ++ (n, t) :: post))
    (repeat None (List.length (List.map mk_field (pre ++ (n, t) :: post))))
  = Err (Serde ("missing field `" ++ n ++ "`")).
Proof.
  induction 1 as [| [m u] pre [u' Hu] _ IH]; intros Ht.
  - simpl. unfold mk_field at 1. simpl.
    destruct t; try reflexivity. exfalso. apply Ht. eexists. reflexivity.
  - simpl in Hu |- *. subst u. simpl. rewrite (IH Ht). reflexivity.
Qed.

(** X3 (deserialize_struct): from an empty object, a
    struct whose fields all have [Option] types gets [None] in every
    field; otherwise the first non-[Option] field gives "missing field". *)
Theorem struct_empty_object fts :
  (Forall (fun nt => is_option (snd nt)) fts ->
   deserialize (TyStruct fts) (EObject []) = Ok (VStruct (List.map (fun nt => (fst nt, VNone)) fts))) /\
  (forall pre n t post,
   fts = pre ++ (n, t) :: post ->
   Forall (fun nt => is_option (snd nt)) pre -> ~ is_option t ->
   deserialize (TyStruct fts) (EObject []) = Err (Serde ("missing field `" ++ n ++ "`"))).
Proof.
  split.
  - intros H. rewrite deserialize_struct_object. cbn [struct_loop bind Monad_result].
    rewrite finish_all_missing_ok by exact H. reflexivity.
  - intros pre n t post -> Hpre Ht. rewrite deserialize_struct_object. cbn [struct_loop bind Monad_result].
    rewrite finish_first_missing_err by assumption. reflexivity.
Qed.

Lemma struct_empty_object_witness :
  deserialize (TyStruct [("a"%string, TyOption TyI64)]) (EObject []) = Ok (VStruct [("a"%string, VNone)]) /\
  deserialize (TyStruct [("a"%string, TyOption TyI64); ("b"%string, TyBool)]) (EObject [])
  = Err (Serde "missing field `b`").
Proof.
  split.
  - apply (proj1 (struct_empty_object [("a"%string, TyOption TyI64)])).
    repeat constructor. eexists. reflexivity.
  - apply (proj2 (struct_empty_object [("a"%string, TyOption TyI64); ("b"%string, TyBool)])
             [("a"%string, TyOption TyI64)] "b"%string TyBool []); [reflexivity | |].
    + repeat constructor. eexists. reflexivity.
    + intros [t' H]. discriminate.
Defined.











(** ** Tuples ([deserialize_tuple], [SeqAccessor]) *)

Lemma tuple_visit_app des : forall xs extra,
  List.length xs = List.length des -> tuple_visit_seq des (xs ++ extra) = tuple_visit_seq des xs.
Proof.
  induction des as [| d des IH]; intros [| x xs] extra Hlen; simpl in Hlen; try discriminate;
    [reflexivity |].
  cbn [tuple_visit_seq next_element_seed app]. destruct (d x) as [v | e]; cbn; [| reflexivity].
  rewrite IH by lia. reflexivity.
Qed.

(** X6 (deserialize_tuple): a tuple reads one element
    per component and never looks at the rest of the array: extra
    trailing elements are ignored. *)
Theorem tuple_ignores_trailing ts xs extra :
  List.length xs = List.length ts ->
  deserialize (TyTuple ts) (EArray (xs ++ extra)) = deserialize (TyTuple ts) (EArray xs).
Proof.
  intros Hlen. rewrite !deserialize_TyTuple. unfold deserialize_seq. cbn [bind Monad_result get_array].
  rewrite tuple_visit_app by (rewrite length_map; exact Hlen). reflexivity.
Qed.

Lemma tuple_ignores_trailing_witness :
  deserialize (TyTuple [TyI64]) (EArray [EInt64 1; EString "extra"]) = Ok (VTuple [VI64 1]).
Proof.
  exact (eq_trans (tuple_ignores_trailing [TyI64] [EInt64 1] [EString "extra"] eq_refl) eq_refl).
Defined.




(** ** Derived enums ([deserialize_enum], [VariantDeserializer]) *)




(** ** [element_to_value]: repeated keys and non-finite doubles *)

Module JsonExtFacts.
Import Json JsonExt.

Lemma string_compare_refl s : String.compare s s = Eq.
Proof. induction s as [| a s IH]; simpl; [reflexivity |]. rewrite JsonFacts.ascii_compare_refl. exact IH. Qed.

Lemma map_get_insert_same k v m : map_get k (map_insert k v m) = Some v.
Proof.
  induction m as [| [k' v'] m IH]; simpl.
  - rewrite string_compare_refl. reflexivity.
  - destruct (String.compare k k') eqn:E; simpl; rewrite ?string_compare_refl, ?E; auto.
Qed.

Lemma map_get_insert_other k k' v m :
  k <> k' -> map_get k (map_insert k' v m) = map_get k m.
Proof.
  intros Hne. induction m as [| [ki vi] m IH]; simpl.
  - destruct (String.compare k k') eqn:E; try reflexivity.
    apply String.compare_eq_iff in E. contradiction.
  - destruct (String.compare k' ki) eqn:E'; simpl.
    + apply String.compare_eq_iff in E'. subst ki.
      destruct (String.compare k k') eqn:E; try reflexivity.
      apply String.compare_eq_iff in E. contradiction.
    + destruct (String.compare k k') eqn:E.
      * apply String.compare_eq_iff in E. contradiction.
      * rewrite (JsonFacts.string_compare_lt_trans _ _ _ E E'). reflexivity.
      * reflexivity.
    + destruct (String.compare k ki); [reflexivity | reflexivity | exact IH].
Qed.

Lemma obj_loop_last d kvs : forall acc m,
  obj_loop d kvs acc = Ok m -> forall k,
  (last_value k kvs = None /\ map_get k m = map_get k acc) \/
  (exists x v, last_value k kvs = Some x /\ element_to_value_inner x d = Ok v /\ map_get k m = Some v).
Proof.
  induction kvs as [| [k' x'] kvs IH]; intros acc m H k; simpl in H.
  - injection H as <-. left. split; reflexivity.
  - destruct (element_to_value_inner x' d) as [v' |] eqn:Ex; [| discriminate].
    cbn in H. simpl last_value.
    destruct (IH _ _ H k) as [[Hn Hm] | [x [v [Hl [Hc Hm]]]]].
    + rewrite Hn. destruct (String.eqb k' k) eqn:Ek.
      * apply String.eqb_eq in Ek. subst k'. right. exists x', v'.
        split; [reflexivity | split; [exact Ex |]]. rewrite Hm. apply map_get_insert_same.
      * apply String.eqb_neq in Ek. left. split; [reflexivity |].
        rewrite Hm. apply map_get_insert_other. congruence.
    + rewrite Hl. right. exists x, v. auto.
Qed.

Lemma arr_loop_float d xs :
  Forall converts_float xs -> Forall (fun x => S d + max_depth x <= 128)%nat xs ->
  match first_some (List.map first_bad_double xs) with
  | None => exists vs, arr_loop (S d) xs = Ok vs
  | Some f => arr_loop (S d) xs = Err (not_a_number_error f)
  end.
Proof.
  induction 1 as [| x xs Hx _ IH]; intros Hb; simpl; [eexists; reflexivity |].
  inversion Hb as [| ? ? Hbx Hbs]; subst.
  specialize (Hx (S d) Hbx). unfold float_outcome in Hx.
  destruct (first_bad_double x) as [f |].
  - rewrite Hx. reflexivity.
  - destruct Hx as [v ->]. cbn. specialize (IH Hbs).
    destruct (first_some (List.map first_bad_double xs)) as [f |].
    + rewrite IH. reflexivity.
    + destruct IH as [vs ->]. eexists. reflexivity.
Qed.

Lemma obj_loop_float d kvs :
  Forall (fun kx => converts_float (snd kx)) kvs ->
  Forall (fun kx => S d + max_depth (snd kx) <= 128)%nat kvs -> forall acc,
  match first_some (List.map (fun '(_, x) => first_bad_double x) kvs) with
  | None => exists m, obj_loop (S d) kvs acc = Ok m
  | Some f => obj_loop (S d) kvs acc = Err (not_a_number_error f)
  end.
Proof.
  induction 1 as [| [k x] kvs Hx _ IH]; intros Hb acc; simpl; [eexists; reflexivity |].
  inversion Hb as [| ? ? Hbx Hbs]; subst. simpl in Hbx.
  specialize (Hx (S d) Hbx). unfold float_outcome in Hx. simpl in Hx.
  destruct (first_bad_double x) as [f |].
  - rewrite Hx. reflexivity.
  - destruct Hx as [v ->]. cbn. apply (IH Hbs).
Qed.

Lemma converts_float_all el : converts_float el.
Proof.
  induction el using elem_ind_nested; intros dp Hd; unfold float_outcome; simpl first_bad_double.
  all: simpl max_depth in Hd.
  all: try (simpl; destruct (Nat.ltb MAX_NESTING_DEPTH dp) eqn:E;
            [apply Nat.ltb_lt in E; unfold MAX_NESTING_DEPTH in E; lia | eexists; reflexivity]).
  - simpl. destruct (Nat.ltb MAX_NESTING_DEPTH dp) eqn:E;
      [apply Nat.ltb_lt in E; unfold MAX_NESTING_DEPTH in E; lia |].
    unfold Number_from_f64. destruct (is_finite d); [eexists; reflexivity | reflexivity].
  - rewrite JsonFacts.element_to_value_inner_array.
    destruct (Nat.ltb MAX_NESTING_DEPTH dp) eqn:E;
      [apply Nat.ltb_lt in E; unfold MAX_NESTING_DEPTH in E; lia |].
    apply JsonFacts.list_max_bound in Hd as [_ Hall]. apply Forall_map in Hall.
    assert (Hb : Forall (fun x => S dp + max_depth x <= 128)%nat xs).
    { eapply Forall_impl; [| exact Hall]. intros x Hx. simpl in Hx. lia. }
    pose proof (arr_loop_float dp xs H Hb) as Hl.
    destruct (first_some (List.map first_bad_double xs)).
    + rewrite Hl. reflexivity.
    + destruct Hl as [vs ->]. eexists. reflexivity.
  - rewrite JsonFacts.element_to_value_inner_object.
    destruct (Nat.ltb MAX_NESTING_DEPTH dp) eqn:E;
      [apply Nat.ltb_lt in E; unfold MAX_NESTING_DEPTH in E; lia |].
    apply JsonFacts.list_max_bound in Hd as [_ Hall]. apply Forall_map in Hall.
    assert (Hb : Forall (fun kx => S dp + max_depth (snd kx) <= 128)%nat kvs).
    { eapply Forall_impl; [| exact Hall]. intros [k x] Hx. simpl in Hx |- *. lia. }
    pose proof (obj_loop_float dp kvs H Hb []) as Hl.
    destruct (first_some (List.map (fun '(_, x) => first_bad_double x) kvs)).
    + rewrite Hl. reflexivity.
    + destruct Hl as [m ->]. eexists. reflexivity.
Qed.

End JsonExtFacts.

(** X10 (element_to_value_inner): when an
    object repeats a key, the map holds the conversion of the last value
    given for it; a key absent from the object is absent from the map. *)
Theorem element_to_value_last_key_wins kvs d m :
  Json.element_to_value_inner (EObject kvs) d = Ok (Json.VObject m) -> forall k,
  match JsonExt.last_value k kvs with
  | None => JsonExt.map_get k m = None
  | Some x => exists v, Json.element_to_value_inner x (S d) = Ok v /\ JsonExt.map_get k m = Some v
  end.
Proof.
  intros H k. rewrite JsonFacts.element_to_value_inner_object in H.
  destruct (Nat.ltb Json.MAX_NESTING_DEPTH d); [discriminate |].
  destruct (Json.obj_loop (S d) kvs []) as [m' |] eqn:E; [| discriminate].
  cbn in H. injection H as <-.
  destruct (JsonExtFacts.obj_loop_last _ _ _ _ E k) as [[-> Hm] | [x [v [-> [Hc Hm]]]]].
  - exact Hm.
  - exists v. split; assumption.
Qed.

Lemma element_to_value_last_key_wins_witness :
  exists v, Json.element_to_value_inner (EInt64 2) 1 = Ok v /\
    JsonExt.map_get "a" (match Json.element_to_value (EObject [("a"%string, EInt64 1); ("a"%string, EInt64 2)]) with
                           | Ok (Json.VObject m) => m | _ => [] end) = Some v.
Proof.
  exact (element_to_value_last_key_wins [("a"%string, EInt64 1); ("a"%string, EInt64 2)] 0
           [("a"%string, Json.VNumber (Json.PosInt 2))] eq_refl "a"%string).
Defined.

(** X11 (element_to_value_inner): within the
    depth limit, the conversion succeeds when every double is finite and
    otherwise fails with "cannot represent ... as a JSON number" for the
    first non-finite double. *)
Theorem element_to_value_non_finite el :
  (Json.max_depth el <= 128)%nat ->
  match JsonExt.first_bad_double el with
  | None => exists v, Json.element_to_value el = Ok v
  | Some f => Json.element_to_value el =
      Err (Serde ("cannot represent " ++ Json.display_non_finite f ++ " as a JSON number (NaN or Infinity)"))
  end.
Proof. intros H. exact (JsonExtFacts.converts_float_all el 0%nat H). Qed.

Lemma element_to_value_non_finite_witness :
  Json.element_to_value (EArray [EInt64 1; EDouble S754_nan])
  = Err (Serde "cannot represent NaN as a JSON number (NaN or Infinity)").
Proof. exact (element_to_value_non_finite (EArray [EInt64 1; EDouble S754_nan]) ltac:(simpl; lia)). Defined.

(** ** Serialization outcome, bytes and maps ([src/serde/ser.rs]) *)

Lemma first_non_finite_fin v : first_non_finite v = None -> fin_val v = true.
Proof.
  induction v using val_ind_nested; simpl; intros Hn; auto.
  all: try (destruct (is_finite f); [reflexivity | discriminate]).
  all: induction H as [| y ys Hy _ IH]; simpl in *; [reflexivity |].
  all: try (destruct (first_non_finite y) eqn:E; [discriminate |]; rewrite (Hy eq_refl); exact (IH Hn)).
  all: destruct y as [k y]; simpl in *; destruct (first_non_finite y) eqn:E; [discriminate |];
       rewrite (Hy eq_refl); exact (IH Hn).
Qed.

Lemma elements_fail xs f :
  Forall (fun x => forall f, first_non_finite x = Some f -> fails_with (serialize x) (non_finite_error f)) xs ->
  first_some (List.map first_non_finite xs) = Some f ->
  forall s sb, exists sb', serialize_elements (List.map serialize xs) s sb = (Err (non_finite_error f), sb').
Proof.
  induction 1 as [| x xs Hx _ IH]; simpl; intros Hf s sb; [discriminate |].
  unfold SerializeSeq_serialize_element.
  destruct (first_non_finite x) as [f' |] eqn:E.
  - injection Hf as ->.
    destruct s as [[|]]; cbn;
      [destruct (Hx f eq_refl sb) as [sb' Hsb] | destruct (Hx f eq_refl (append_toks sb [TComma])) as [sb' Hsb]];
      rewrite Hsb; exists sb'; reflexivity.
  - pose proof (serialize_enc x (first_non_finite_fin x E)) as Hok.
    destruct s as [[|]]; cbn; rewrite Hok; apply IH; exact Hf.
Qed.

Lemma fields_fail fs f :
  Forall (fun kx => forall f, first_non_finite (snd kx) = Some f ->
                    fails_with (serialize (snd kx)) (non_finite_error f)) fs ->
  first_some (List.map (fun '(_, x) => first_non_finite x) fs) = Some f ->
  forall m sb, exists sb',
    serialize_fields (List.map (fun '(k, x) => (k, serialize x)) fs) m sb = (Err (non_finite_error f), sb').
Proof.
  induction 1 as [| [k x] fs Hx _ IH]; simpl in *; intros Hf m sb; [discriminate |].
  unfold SerializeStruct_serialize_field.
  destruct (first_non_finite x) as [f' |] eqn:E.
  - injection Hf as ->.
    destruct m as [[|]]; cbn;
      match goal with |- context [serialize x ?sb0] => destruct (Hx f eq_refl sb0) as [sb' Hsb] end;
      rewrite Hsb; exists sb'; reflexivity.
  - pose proof (serialize_enc x (first_non_finite_fin x E)) as Hok.
    destruct m as [[|]]; cbn; rewrite Hok; apply IH; exact Hf.
Qed.

Lemma serialize_fails v f :
  first_non_finite v = Some f -> fails_with (serialize v) (non_finite_error f).
Proof.
  revert f. induction v using val_ind_nested; simpl first_non_finite; intros f' Hf; try discriminate.
  - destruct (is_finite f) eqn:E; [discriminate |]. injection Hf as <-.
    intros sb. exists sb. simpl. unfold serialize_f64. rewrite E. reflexivity.
  - rewrite serialize_VSeq. intros sb. cbn.
    destruct (elements_fail xs f' H Hf {| seq_first := true |} (append_toks sb [TStartArray])) as [sb' Hsb].
    rewrite Hsb. exists sb'. reflexivity.
  - rewrite serialize_VTuple. intros sb. cbn.
    destruct (elements_fail xs f' H Hf {| seq_first := true |} (append_toks sb [TStartArray])) as [sb' Hsb].
    rewrite Hsb. exists sb'. reflexivity.
  - exact (IHv f' Hf).
  - rewrite serialize_VStruct. intros sb. cbn.
    destruct (fields_fail fs f' H Hf {| map_first := true |} (append_toks sb [TStartObject])) as [sb' Hsb].
    rewrite Hsb. exists sb'. reflexivity.
  - intros sb. simpl. unfold serialize_newtype_variant. cbn.
    match goal with |- context [serialize v ?sb0] => destruct (IHv f' Hf sb0) as [sb' Hsb] end.
    rewrite Hsb. exists sb'. reflexivity.
  - rewrite serialize_VTupleVariant. intros sb. cbn.
    match goal with |- context [serialize_elements _ _ ?sb0] =>
      destruct (elements_fail xs f' H Hf {| seq_first := true |} sb0) as [sb' Hsb] end.
    rewrite Hsb. exists sb'. reflexivity.
  - rewrite serialize_VStructVariant. intros sb. cbn.
    match goal with |- context [serialize_fields _ _ ?sb0] =>
      destruct (fields_fail fs f' H Hf {| map_first := true |} sb0) as [sb' Hsb] end.
    rewrite Hsb. exists sb'. reflexivity.
Qed.

(** X12 (to_string): serialization succeeds with the
    value's full token text when every [f64] is finite, and otherwise
    fails with "cannot serialize non-finite float" for the first
    non-finite one. *)
Theorem to_string_outcome v :
  to_string v =
  match first_non_finite v with
  | None => Ok (enc v)
  | Some f => Err (Serde ("cannot serialize non-finite float: " ++ Json.display_non_finite f))
  end.
Proof.
  unfold to_string. destruct (first_non_finite v) as [f |] eqn:E.
  - destruct (serialize_fails v f E StringBuilder_new) as [sb' ->]. reflexivity.
  - rewrite (serialize_enc v (first_non_finite_fin v E)). reflexivity.
Qed.

Lemma bytes_loop_appends bs : forall i, (0 < i)%nat ->
  appends (serialize_bytes_loop i bs) (comma_each (List.map (fun b => [TU64 b]) bs)).
Proof.
  induction bs as [| b bs IH]; intros i Hi sb; simpl.
  - rewrite append_toks_nil. reflexivity.
  - destruct i as [| i]; [lia |]. cbn. rewrite (IH (S (S i)) ltac:(lia)), !append_toks_app. reflexivity.
Qed.

Lemma forallb_fin_u64 bs : forallb fin_val (List.map VU64 bs) = true.
Proof. induction bs; simpl; auto. Qed.

(** X13 (serialize_bytes): a byte slice is
    written exactly as a sequence of [u64] numbers is: an array of the
    byte values, comma-separated. *)
Theorem serialize_bytes_as_u64_seq bs sb :
  serialize_bytes bs sb = serialize (VSeq (List.map VU64 bs)) sb.
Proof.
  rewrite (serialize_enc (VSeq (List.map VU64 bs))) by (simpl; apply forallb_fin_u64).
  unfold serialize_bytes. destruct bs as [| b bs]; cbn.
  - rewrite append_toks_app. reflexivity.
  - rewrite (bytes_loop_appends bs 1 ltac:(lia)). cbn. rewrite !append_toks_app.
    unfold seq_text, sep_by_comma. rewrite List.map_map. simpl. rewrite <- ?app_assoc. reflexivity.
Qed.

Lemma entries_as_fields fs : forall m sb,
  serialize_entries (List.map (fun '(k, x) => (serialize (VStr k), serialize x)) fs) m sb =
  serialize_fields (List.map (fun '(k, x) => (k, serialize x)) fs) m sb.
Proof.
  induction fs as [| [k x] fs IH]; intros [first] sb; [reflexivity |].
  cbn [List.map serialize_entries serialize_fields].
  unfold SerializeMap_serialize_key, SerializeMap_serialize_value, SerializeStruct_serialize_field.
  destruct first; cbn;
    match goal with |- context [serialize x ?sb0] => destruct (serialize x sb0) as [[[] | e] sb'] end;
    cbn; try reflexivity; apply IH.
Qed.

(** X14 (SerializeMap): a map with string keys
    is written exactly as a struct with those field names and values
    is, errors included. *)
Theorem map_string_keys_as_struct fs sb :
  collect_map (List.map (fun '(k, x) => (serialize (VStr k), serialize x)) fs) sb = serialize (VStruct fs) sb.
Proof.
  rewrite serialize_VStruct. unfold collect_map. cbn.
  rewrite entries_as_fields. destruct (serialize_fields _ _ _) as [[m | e] sb']; reflexivity.
Qed.

Lemma entries_appends kvs : forall m sb,
  forallb (fun kv => fin_val (fst kv) && fin_val (snd kv)) kvs = true ->
  exists m', serialize_entries (List.map (fun '(k, x) => (serialize k, serialize x)) kvs) m sb =
    (Ok m', append_toks sb (if map_first m then sep_by_comma (List.map entry_text kvs)
                            else comma_each (List.map entry_text kvs))).
Proof.
  induction kvs as [| [k x] kvs IH]; intros [first] sb Hf.
  - exists {| map_first := first |}. destruct first; simpl; rewrite append_toks_nil; reflexivity.
  - simpl in Hf. apply andb_true_iff in Hf as [Hkx Hf]. apply andb_true_iff in Hkx as [Hk Hx].
    cbn [List.map serialize_entries].
    unfold SerializeMap_serialize_key, SerializeMap_serialize_value.
    destruct first; cbn; rewrite (serialize_enc k Hk); cbn; rewrite (serialize_enc x Hx); cbn;
      match goal with |- context [serialize_entries _ _ ?sb0] => destruct (IH {| map_first := false |} sb0 Hf) as [m' Hm] end;
      rewrite Hm; exists m'; cbn; rewrite !append_toks_app; unfold entry_text; simpl;
      rewrite <- ?app_assoc; reflexivity.
Qed.

Lemma enc_head v : exists t r, enc v = t :: r /\ t <> TEndObject.
Proof.
  induction v; simpl; try exact IHv; unfold seq_text, obj_text;
    eexists _, _; (split; [reflexivity | discriminate]).
Qed.

(** X15 (SerializeMap): keys are written
    with their own serializer, with no check that they are strings: a map
    whose first key is not a string (an integer, say) serializes
    successfully to tokens the DOM parser rejects. *)
Theorem map_non_string_key_unparsable k x rest sb :
  forallb (fun kv => fin_val (fst kv) && fin_val (snd kv)) ((k, x) :: rest) = true ->
  (forall s, hd_error (enc k) <> Some (TString s)) ->
  let ts := [TStartObject] ++ sep_by_comma (List.map entry_text ((k, x) :: rest)) ++ [TEndObject] in
  collect_map (List.map (fun '(k, x) => (serialize k, serialize x)) ((k, x) :: rest)) sb
    = (Ok tt, append_toks sb ts) /\
  parse ts = None.
Proof.
  intros Hf Hk ts. split.
  - unfold collect_map. cbn [bind Monad_M serialize_map start_object emit ret].
    destruct (entries_appends ((k, x) :: rest) {| map_first := true |} (append_toks sb [TStartObject]) Hf)
      as [m' Hm].
    rewrite Hm. cbn. unfold SerializeMap_end, end_object, emit. rewrite !append_toks_app.
    unfold ts. cbn. rewrite <- ?app_assoc. reflexivity.
  - destruct (enc_head k) as [t [r [Ht Hne]]].
    unfold ts, parse, entry_text. cbn [List.map sep_by_comma fst snd]. rewrite Ht.
    cbn [app List.length parse_value].
    destruct t; try reflexivity; [exfalso; apply (Hk s); rewrite Ht; reflexivity | contradiction].
Qed.

Lemma map_non_string_key_unparsable_witness :
  parse ([TStartObject] ++ sep_by_comma (List.map entry_text [(VI64 1, VBool true)]) ++ [TEndObject]) = None.
Proof.
  apply (map_non_string_key_unparsable (VI64 1) (VBool true) [] StringBuilder_new); [reflexivity |].
  intros s H. discriminate.
Defined.

(* ================================================================= *)
(** ** Characters: UTF-8 encoding and decoding *)

Lemma lor_disj a c k : 0 <= k -> 0 <= a < 2 ^ k -> 0 <= c -> c mod 2 ^ k = 0 ->
  Z.lor a c = a + c.
Proof.
  intros Hk Ha Hc Hm.
  assert (Hd : Z.land a c = 0).
  { apply Z.bits_inj'. intros n Hn. rewrite Z.land_spec, Z.bits_0.
    destruct (Z.lt_ge_cases n k) as [Hlt | Hge].
    - rewrite (Z.div_mod c (2 ^ k)) by (apply Z.pow_nonzero; lia).
      rewrite Hm, Z.add_0_r, Z.mul_comm, Z.mul_pow2_bits_low by lia. apply andb_false_r.
    - rewrite <- (Z.mod_small a (2 ^ k)) by lia.
      rewrite Z.mod_pow2_bits_high by lia. reflexivity. }
  rewrite <- Z.lxor_lor by exact Hd. rewrite <- Z.add_nocarry_lxor by exact Hd. reflexivity.
Qed.

Lemma land_low a k m : 0 <= k -> m = Z.ones k -> Z.land a m = a mod 2 ^ k.
Proof. intros Hk ->. apply Z.land_ones. exact Hk. Qed.

Ltac norm_pow :=
  repeat match goal with
  | |- context [2 ^ ?k] => let v := eval vm_compute in (2 ^ k) in change (2 ^ k) with v
  end.

Ltac zlia := norm_pow; Z.div_mod_to_equations; lia.

(** Bit operations on byte-sized values as arithmetic. *)
Ltac utf8_arith :=
  repeat first
    [ rewrite Z.shiftr_div_pow2 by lia
    | rewrite Z.shiftl_mul_pow2 by lia
    | rewrite (land_low _ 6 63) by (lia || reflexivity)
    | rewrite (land_low _ 5 31) by (lia || reflexivity)
    | rewrite (land_low _ 4 15) by (lia || reflexivity)
    | rewrite (land_low _ 3 7) by (lia || reflexivity) ].

Ltac decide_conds :=
  rewrite ?Z.geb_leb;
  repeat match goal with
  | |- context [?a <? ?b] =>
      first [ replace (a <? b) with true by (symmetry; apply Z.ltb_lt; zlia)
            | replace (a <? b) with false by (symmetry; apply Z.ltb_ge; zlia) ]
  | |- context [?a <=? ?b] =>
      first [ replace (a <=? b) with true by (symmetry; apply Z.leb_le; zlia)
            | replace (a <=? b) with false by (symmetry; apply Z.leb_gt; zlia) ]
  end.

Ltac lor_at a b :=
  first [ rewrite (lor_disj a b 3) by zlia | rewrite (lor_disj a b 4) by zlia
        | rewrite (lor_disj a b 5) by zlia | rewrite (lor_disj a b 6) by zlia
        | rewrite (lor_disj a b 12) by zlia | rewrite (lor_disj a b 18) by zlia ].

Ltac lor_step :=
  match goal with
  | |- context [Z.lor ?a ?b] =>
      first [ lor_at a b | rewrite (Z.lor_comm a b); lor_at b a ]
  end.

Ltac utf8_solve :=
  cbn [app next_code_point]; unfold utf8_first_byte, utf8_acc_cont_byte;
  change (Z.shiftr 0x7F 2) with 31;
  repeat (utf8_arith; norm_pow; repeat lor_step; decide_conds; cbn beta iota);
  do 2 f_equal; zlia.

Lemma next_code_point_encode c rest : 0 <= c <= 0x10FFFF ->
  next_code_point (encode_utf8 c ++ rest) = Some (c, rest).
Proof.
  intros Hc. unfold encode_utf8.
  destruct (Z.ltb_spec c 0x80); [cbn; destruct (Z.ltb_spec c 128); [reflexivity | lia] |].
  destruct (Z.ltb_spec c 0x800); [utf8_solve |].
  destruct (Z.ltb_spec c 0x10000); utf8_solve.
Qed.

Lemma encode_utf8_bytes c : 0 <= c <= 0x10FFFF ->
  Forall (fun b => 0 <= b < 256) (encode_utf8 c).
Proof.
  intros Hc. unfold encode_utf8.
  destruct (Z.ltb_spec c 0x80); [repeat constructor; lia |].
  destruct (Z.ltb_spec c 0x800); [| destruct (Z.ltb_spec c 0x10000)];
    utf8_arith; norm_pow; repeat lor_step; repeat constructor; zlia.
Qed.

Lemma str_bytes_app s1 s2 : str_bytes (s1 ++ s2) = str_bytes s1 ++ str_bytes s2.
Proof.
  induction s1 as [| a s1 IH]; [reflexivity |].
  unfold str_bytes in *. cbn. rewrite IH. reflexivity.
Qed.

Lemma str_bytes_char c : 0 <= c <= 0x10FFFF -> str_bytes (char_to_string c) = encode_utf8 c.
Proof.
  intros Hc. unfold str_bytes, char_to_string. rewrite list_ascii_of_string_of_list_ascii.
  rewrite map_map. pose proof (encode_utf8_bytes c Hc) as HF.
  induction HF as [| b bs Hb _ IH]; [reflexivity |].
  cbn. rewrite IH, N_ascii_embedding by lia. rewrite Z2N.id by lia. reflexivity.
Qed.

(** X16 (serialize_char, deserialize_char): a character round-trips.
    [serialize_char] writes one string token, the parser reads it back as
    a string node, and [deserialize_char] reads that node back as the same
    code point, for every code point up to U+10FFFF. *)
Theorem char_round_trip c sb : 0 <= c <= 0x10FFFF ->
  serialize_char c sb = (Ok tt, append_toks sb [TString (char_to_string c)]) /\
  parse [TString (char_to_string c)] = Some (EString (char_to_string c)) /\
  deserialize_char (EString (char_to_string c)) = Ok c.
Proof.
  intros Hc. split; [reflexivity | split; [reflexivity |]].
  unfold deserialize_char. cbn [get_string bind Monad_result].
  rewrite str_bytes_char by exact Hc.
  rewrite <- (app_nil_r (encode_utf8 c)), next_code_point_encode by exact Hc.
  reflexivity.
Qed.

Lemma char_round_trip_witness :
  deserialize_char (EString (char_to_string 0x20AC)) = Ok 0x20AC.
Proof. exact (proj2 (proj2 (char_round_trip 0x20AC StringBuilder_new ltac:(lia)))). Defined.

(** X17 (deserialize_char): only a one-character string is a character.
    The empty string and a string of two or more characters give
    "expected a single character string"; a node that is not a string
    gives [IncorrectType]. *)
Theorem deserialize_char_rejects c1 c2 s el :
  0 <= c1 <= 0x10FFFF -> 0 <= c2 <= 0x10FFFF ->
  (forall s', el <> EString s') ->
  deserialize_char (EString "") = Err (Serde "expected a single character string") /\
  deserialize_char (EString (char_to_string c1 ++ char_to_string c2 ++ s))
    = Err (Serde "expected a single character string") /\
  deserialize_char el = Err IncorrectType.
Proof.
  intros H1 H2 Hel. split; [reflexivity | split].
  - unfold deserialize_char. cbn [get_string bind Monad_result].
    rewrite !str_bytes_app, !str_bytes_char by assumption.
    rewrite !next_code_point_encode by assumption. reflexivity.
  - unfold deserialize_char. destruct el; try reflexivity. exfalso. exact (Hel s0 eq_refl).
Qed.

Lemma deserialize_char_rejects_witness :
  deserialize_char (EString (char_to_string 0x61 ++ char_to_string 0x1F600 ++ ""))
    = Err (Serde "expected a single character string").
Proof.
  exact (proj1 (proj2 (deserialize_char_rejects 0x61 0x1F600 "" (EBool true)
    ltac:(lia) ltac:(lia) ltac:(discriminate)))).
Defined.
